(** * Sparse mixture-of-experts routing (divan/module/kan_convs/moe_kan.py)

    A shallow embedding of [SparseDispatcher] and of the gating and forward
    pass of [MoEKANConvBase], and of the device choice [chose_cuda] of
    divan/utils/cuda_ready.py.

    Conventions of the embedding.
    - A tensor element is a value of a type [T] with the operations of the
      class [FloatOps].  The index bookkeeping of the dispatcher is proved for
      every such [T]; the analytic statements (softmax, exp and log) are
      proved for the instance on [R], that is for exact real arithmetic:
      rounding, overflow, underflow and NaN are outside the model.
    - A tensor of shape [n, d1, d2, ...] is a list of n rows, each row the
      flattened list of its d1*d2*... elements.  Where the source reads a
      trailing shape off a tensor that may have no rows, the model takes the
      flattened size as an argument.
    - A call that raises in Python returns [None] here, or the error of the
      type [result].
    - [torch.sort] and [torch.topk] are modelled as stable: equal keys keep
      their original order. *)

From Stdlib Require Import Reals Lra Lia ZArith List Bool Permutation Sorted Ascii.
From stdpp Require Import base list sorting strings pretty.

Set Default Proof Using "Type".

(** ** Scalars *)

Class FloatOps (T : Type) := {
  flit : Z -> positive -> T;      (* the literal num/den *)
  fadd : T -> T -> T;
  fsub : T -> T -> T;
  fmul : T -> T -> T;
  fdiv : T -> T -> T;
  fexp : T -> T;
  flog : T -> T;
  fnez : T -> bool;               (* x != 0 *)
  fgt : T -> T -> bool            (* x > y *)
}.

Section Tensor.
Context {T : Type} `{FloatOps T}.

Definition f0 : T := flit 0 1.
Definition f1 : T := flit 1 1.
Definition of_nat (n : nat) : T := flit (Z.of_nat n) 1.
Definition of_bool (b : bool) : T := if b then f1 else f0.
(* x > 0 *)
Definition fpos (x : T) : bool := fgt x f0.

(* sum of a 1-d tensor, accumulated left to right *)
Definition fsum (l : list T) : T := fold_left fadd l f0.

(* element [b][e] of a 2-d tensor; the default is only read out of range *)
Definition at2 (m : list (list T)) (b e : nat) : T := nth e (nth b m []) f0.

(* t.sum(0) of a tensor with [ncols] columns *)
Definition sum0 (ncols : nat) (m : list (list T)) : list T :=
  fmap (fun e => fsum (fmap (fun row => nth e row f0) m)) (seq 0 ncols).

(* an elementwise function on a 2-d tensor *)
Definition map2d {A B} (f : A -> B) (m : list (list A)) : list (list B) :=
  fmap (M := list) (fmap (M := list) f) m.

(* elementwise operations on rows *)
Definition vadd (u v : list T) : list T := zip_with fadd u v.
Definition vscale (g : T) (v : list T) : list T := fmap (fmul g) v.
End Tensor.

(** ** Stable sorting, as used for [Tensor.sort] and [Tensor.topk] *)

Section StableSort.
Context {A : Type} (le : A -> A -> bool).

Fixpoint insert_sorted (x : A) (l : list A) : list A :=
  match l with
  | [] => [x]
  | y :: l' => if le x y then x :: l else y :: insert_sorted x l'
  end.

Definition stable_sort (l : list A) : list A := foldr insert_sorted [] l.
End StableSort.

(* position-tagged keys: [(key, original position)] *)
Definition tag {A} (l : list A) : list (A * nat) := zip l (seq 0 (length l)).

(* keys.sort(0) for one column: the sorted keys and, with them, the positions
   they came from (the second result of torch's sort) *)
Definition sort_col (keys : list nat) : list (nat * nat) :=
  stable_sort (fun a b => fst a <=? fst b) (tag keys).

(** ** SparseDispatcher *)

Module SparseDispatcher.
Section Dispatcher.
Context {T : Type} `{FloatOps T}.

Record t := {
  gates : list (list T);
  num_experts : nat;
  expert_index : list nat;
  batch_index : list nat;
  part_sizes : list nat;
  nonzero_gates : list T
}.

(* torch.nonzero(gates): the [b, e] pairs with gates[b, e] != 0, row-major *)
Definition nonzero_row (b : nat) (row : list T) : list (nat * nat) :=
  fmap (fun p => (b, snd p)) (filter (fun p => fnez (fst p) = true) (tag row)).

Definition nonzero (g : list (list T)) : list (nat * nat) :=
  mjoin (fmap (fun p => nonzero_row (snd p) (fst p)) (tag g)).

(* (gates > 0).sum(0), for a gate tensor with [ne] columns *)
Definition count_pos (ne : nat) (g : list (list T)) : list nat :=
  fmap (fun e => length (filter (fun row => fpos (nth e row f0) = true) g)) (seq 0 ne).

Definition init (ne : nat) (g : list (list T)) : t :=
  let nz := nonzero g in
  (* sorted_experts, index_sorted_experts = torch.nonzero(gates).sort(0):
     each column is sorted on its own *)
  let col0 := sort_col (fmap fst nz) in
  let col1 := sort_col (fmap snd nz) in
  let sorted_experts0 := fmap fst col0 in
  let index_sorted_experts1 := fmap snd col1 in
  let expert_index := fmap fst col1 in
  let batch_index := fmap (fun i => nth i sorted_experts0 0) index_sorted_experts1 in
  let gates_exp := fmap (fun b => nth b g []) batch_index in
  {| gates := g;
     num_experts := ne;
     expert_index := expert_index;
     batch_index := batch_index;
     part_sizes := count_pos ne g;
     nonzero_gates := zip_with (fun row e => nth e row f0) gates_exp expert_index |}.

(* torch.split(l, sizes, dim=0): the sizes must add up to the length *)
Fixpoint split_sizes {A} (l : list A) (sizes : list nat) : option (list (list A)) :=
  match sizes with
  | [] => if decide (length l = 0) then Some [] else None
  | n :: sizes' =>
      if decide (n <= length l)
      then cons (take n l) <$> split_sizes (drop n l) sizes'
      else None
  end.

(* inp[self._batch_index] *)
Definition index_rows {A} (inp : list A) (idx : list nat) : option (list A) :=
  mapM (fun i => inp !! i) idx.

Definition dispatch {A} (d : t) (inp : list A) : option (list (list A)) :=
  inp_exp ← index_rows inp (batch_index d);
  split_sizes inp_exp (part_sizes d).

(* stitched.mul(gates) with gates of shape [n, 1, ..., 1]: broadcasting
   along dim 0 when one side has a single row *)
Definition mul_gates (stitched : list (list T)) (g : list T) : option (list (list T)) :=
  if decide (length stitched = length g) then Some (zip_with vscale g stitched)
  else match stitched, g with
       | [row], _ => Some (fmap (fun gi => vscale gi row) g)
       | _, [g1] => Some (fmap (vscale g1) stitched)
       | _, _ => None
       end.

(* zeros.index_add(0, index, src) *)
Definition index_add (zeros : list (list T)) (index : list nat) (src : list (list T))
  : option (list (list T)) :=
  if decide (length index = length src) then
    if forallb (fun i => i <? length zeros) index
    then Some (fold_left (fun acc p => alter (fun row => vadd row (snd p)) (fst p) acc)
                         (zip index src) zeros)
    else None
  else None.

(* np.finfo(float).eps *)
Definition eps : T := flit 1 (2 ^ 52).

(* [feat] is the flattened size of expert_out[-1].shape[1:] *)
Definition combine (d : t) (feat : nat) (expert_out : list (list (list T)))
    (multiply_by_gates : bool) : option (list (list T)) :=
  if decide (expert_out = []) then None
  else if negb (forallb (forallb (fun row => length row =? feat)) expert_out) then None
  else
    let stitched := map2d fexp (mjoin expert_out) in
    stitched ← (if multiply_by_gates then mul_gates stitched (nonzero_gates d)
                 else Some stitched);
    let zeros := replicate (length (gates d)) (replicate feat f0) in
    combined ← index_add zeros (batch_index d) stitched;
    let combined := map2d (fun x => if fnez x then x else eps) combined in
    Some (map2d flog combined).

Definition expert_to_gates (d : t) : option (list (list T)) :=
  split_sizes (nonzero_gates d) (part_sizes d).
End Dispatcher.
End SparseDispatcher.

  (** ** MoEKANConvBase *)

Inductive result (A : Type) : Type :=
    | Ok (a : A)
    | RuntimeError
    | AssertionError.
Arguments Ok {A} a.
Arguments RuntimeError {A}.
Arguments AssertionError {A}.

Module MoEKANConvBase.
Section Layer.
Context {T : Type} `{FloatOps T}.

(* a work unit: its channels, each the flattened list of its pixels *)
Definition unit_t : Type := list (list T).
(* an expert maps a sub-batch to the rows of its output *)
Definition expert : Type := list unit_t -> list (list T).

Record t := {
  noisy_gating : bool;
  num_experts : Z;
  output_size : Z;
  input_size : Z;
  k : Z;
  experts : list expert;
  w_gate : list (list T);
  w_noise : list (list T)
}.

(* [conv] stands for the expert that conv_class(...) builds; the loop over
   range(1, num_experts) copies the state of experts[0] into the others.
   torch.zeros raises on a negative dimension. *)
Definition init (conv : expert) (input_size output_size : Z)
    (num_experts : Z) (noisy_gating : bool) (k : Z) : result t :=
  let experts := replicate (Z.to_nat num_experts) conv in
  if (input_size <? 0)%Z || (num_experts <? 0)%Z then RuntimeError
  else
    let zeros := replicate (Z.to_nat input_size)
                           (replicate (Z.to_nat num_experts) f0) in
    if (k <=? num_experts)%Z
    then Ok {| noisy_gating := noisy_gating; num_experts := num_experts;
               output_size := output_size; input_size := input_size; k := k;
               experts := experts; w_gate := zeros; w_noise := zeros |}
    else AssertionError.

(* x.float().mean() and x.float().var() (unbiased) *)
Definition mean (x : list T) : T := fdiv (fsum x) (of_nat (length x)).
Definition var (x : list T) : T :=
  let mu := mean x in
  fdiv (fsum (fmap (fun v => fmul (fsub v mu) (fsub v mu)) x))
       (fsub (of_nat (length x)) f1).

Definition cv_squared (x : list T) : T :=
  let eps := flit 1 (10 ^ 10) in
  if decide (length x = 1) then f0
  else fdiv (var x) (fadd (fmul (mean x) (mean x)) eps).

(* (gates > 0).sum(0); the counts are converted by .float() when used *)
Definition gates_to_load (ne : nat) (g : list (list T)) : list T :=
  fmap of_nat (SparseDispatcher.count_pos ne g).

(* torch.gather(flat, 0, positions) at one position *)
Definition gather1 (flat : list T) (pos : Z) : option T :=
  if (pos <? 0)%Z then None else flat !! Z.to_nat pos.

Definition prob_in_top_k (self : t) (cdf : T -> T)
    (clean_values noisy_values noise_stddev noisy_top_values : list (list T))
    : option (list (list T)) :=
  let batch := length clean_values in
  let m := Z.of_nat (length (nth 0 noisy_top_values [])) in
  let top_values_flat := mjoin noisy_top_values in
  let threshold_positions_if_in :=
    fmap (fun b => (Z.of_nat b * m + k self)%Z) (seq 0 batch) in
  threshold_if_in ← mapM (gather1 top_values_flat) threshold_positions_if_in;
  let threshold_positions_if_out :=
    fmap (fun p => (p - 1)%Z) threshold_positions_if_in in
  threshold_if_out ← mapM (gather1 top_values_flat) threshold_positions_if_out;
  Some (imap (fun b row =>
          let t_in := nth b threshold_if_in f0 in
          let t_out := nth b threshold_if_out f0 in
          imap (fun e clean =>
                  let is_in := fgt (at2 noisy_values b e) t_in in
                  let prob_if_in := cdf (fdiv (fsub clean t_in) (at2 noise_stddev b e)) in
                  let prob_if_out := cdf (fdiv (fsub clean t_out) (at2 noise_stddev b e)) in
                  if is_in then prob_if_in else prob_if_out) row)
        clean_values).

(* x @ w for x of shape [_, nin] and w of shape [nin, nout] *)
Definition matmul (nin nout : nat) (x w : list (list T)) : option (list (list T)) :=
  if forallb (fun row => length row =? nin) x && (length w =? nin)
     && forallb (fun row => length row =? nout) w
  then Some (fmap (fun row =>
               fmap (fun e => fsum (zip_with fmul row (fmap (fun wr => nth e wr f0) w)))
                   (seq 0 nout)) x)
  else None.

(* nn.Softplus(): linear above the threshold 20 *)
Definition softplus (x : T) : T :=
  if fgt x (flit 20 1) then x else flog (fadd f1 (fexp x)).

(* nn.Softmax(1) on one row *)
Definition softmax (row : list T) : list T :=
  let es := fmap fexp row in fmap (fun e => fdiv e (fsum es)) es.

(* one row of t.topk(n, dim=1): (value, index) pairs, largest first *)
Definition topk_row (n : nat) (row : list T) : list (T * nat) :=
  take n (stable_sort (fun a b => negb (fgt (fst b) (fst a))) (tag row)).

(* l[:k] *)
Definition slice_to {A} (k : Z) (l : list A) : list A :=
  if (k <? 0)%Z then take (length l - Z.to_nat (- k)) l else take (Z.to_nat k) l.

(* one row of zeros.scatter(1, index, src) *)
Definition scatter_row (zeros : list T) (index : list nat) (src : list T) : list T :=
  fold_left (fun acc p => <[fst p := snd p]> acc) (zip index src) zeros.

(* [randn b e] is the sample that torch.randn_like draws for position [b, e] *)
Definition noisy_top_k_gating (self : t) (cdf : T -> T) (randn : nat -> nat -> T)
    (x : list (list T)) (train : bool) (noise_epsilon : T)
    : option (list (list T) * list T) :=
  let nin := Z.to_nat (input_size self) in
  let ne := Z.to_nat (num_experts self) in
  clean_logits ← matmul nin ne x (w_gate self);
  raw_noise_stddev ← (if noisy_gating self then matmul nin ne x (w_noise self)
                       else Some []);
  let noise_stddev :=
    map2d (fun r => fmul (fadd (softplus r) noise_epsilon) (of_bool train))
          raw_noise_stddev in
  let noisy_logits :=
    imap (fun b row => imap (fun e c => fadd c (fmul (randn b e) (at2 noise_stddev b e))) row)
         clean_logits in
  let logits := if noisy_gating self then noisy_logits else clean_logits in
  let n := Z.min (k self + 1) (num_experts self) in
  if (n <? 0)%Z || (Z.of_nat ne <? n)%Z then None
  else
    let top := fmap (topk_row (Z.to_nat n)) logits in
    let top_logits := map2d fst top in
    let top_indices := map2d snd top in
    let top_k_logits := fmap (slice_to (k self)) top_logits in
    let top_k_indices := fmap (slice_to (k self)) top_indices in
    let top_k_gates := fmap softmax top_k_logits in
    let zeros := map2d (fun _ => f0) logits in
    let gates := zip_with (fun z p => scatter_row z (fst p) (snd p))
                          zeros (zip top_k_indices top_k_gates) in
    load ← (if noisy_gating self && (k self <? num_experts self)%Z && train
             then sum0 ne <$> prob_in_top_k self cdf clean_logits noisy_logits
                                            noise_stddev top_logits
             else Some (gates_to_load ne gates));
    Some (gates, load).

(* the list comprehension of forward, with a log of the calls made:
   (expert index, sub-batch) in call order *)
Fixpoint call_experts (es : list expert) (expert_inputs : list (list unit_t))
    (range : list nat) : option (list (list (list T)) * list (nat * list unit_t)) :=
  match range with
  | [] => Some ([], [])
  | i :: range' =>
      e ← es !! i;
      inp ← expert_inputs !! i;
      let out := e inp in
      r ← call_experts es expert_inputs range';
      Some (out :: fst r, (i, inp) :: snd r)
  end.

(* flatten(avgpool(x), 1): the mean of every channel *)
Definition avgpool (x : list unit_t) : list (list T) := map2d mean x.

(* [feat] is the flattened size of one output row of an expert.  The result
   is y, the loss and the log of expert calls. *)
Definition forward (self : t) (cdf : T -> T) (randn : nat -> nat -> T) (feat : nat)
    (x : list unit_t) (train : bool) (loss_coef : T)
    : option (list (list T) * T * list (nat * list unit_t)) :=
  let ne := Z.to_nat (num_experts self) in
  let gate_x := avgpool x in
  gl ← noisy_top_k_gating self cdf randn gate_x train (flit 1 100);
  let gates := fst gl in
  let load := snd gl in
  let importance := sum0 ne gates in
  let loss := fadd (cv_squared importance) (cv_squared load) in
  let loss := fmul loss loss_coef in
  let dispatcher := SparseDispatcher.init ne gates in
  expert_inputs ← SparseDispatcher.dispatch dispatcher x;
  _ ← SparseDispatcher.expert_to_gates dispatcher;
  r ← call_experts (experts self) expert_inputs (seq 0 ne);
  y ← SparseDispatcher.combine dispatcher feat (fst r) true;
  Some (y, loss, snd r).
End Layer.
End MoEKANConvBase.

(** ** chose_cuda (divan/utils/cuda_ready.py)

    The function reads two things of its environment: the number of CUDA
    devices and, only when it takes its first branch, the standard output of
    the configured memory command.  Both are arguments here.  Python's
    [int] on a string is an argument too: [None] stands for its ValueError. *)

(* str.replace(old, new) for a non-empty old: the occurrences are replaced
   from the left and do not overlap; [skip] counts the characters of a
   matched occurrence that are still to be dropped *)
Fixpoint replace_from (old new : string) (skip : nat) (s : string) : string :=
  match s with
  | EmptyString => EmptyString
  | String c s' =>
      match skip with
      | S n => replace_from old new n s'
      | O => if String.prefix old s
             then new +:+ replace_from old new (String.length old - 1) s'
             else String c (replace_from old new 0 s')
      end
  end.

Definition str_replace (old new s : string) : string := replace_from old new 0 s.

(* str.split(sep) for a separator of one character *)
Fixpoint str_split (sep : Ascii.ascii) (s : string) : list string :=
  match s with
  | EmptyString => [EmptyString]
  | String c s' =>
      if decide (c = sep) then EmptyString :: str_split sep s'
      else match str_split sep s' with
           | [] => [String c EmptyString]
           | w :: ws => String c w :: ws
           end
  end.

(* max(range, key=key): the first element with the largest key; the
   ValueError for an empty range is [None] *)
Definition max_by_key (key : nat -> Z) (range : list nat) : option nat :=
  match range with
  | [] => None
  | i0 :: rest =>
      Some (fold_left (fun best i => if (key best <? key i)%Z then i else best) rest i0)
  end.

Section CudaReady.
Variable int : string -> option Z.

(* the lines that the list comprehension converts: all but the first line
   of the output without its '%' and 'MiB', the empty ones left out *)
Definition memory_lines (stdout : string) : list string :=
  let cuda_ram := str_replace "MiB" "" (str_replace "%" "" stdout) in
  filter (fun i => 0 < String.length i) (tail (str_split "010"%char cuda_ram)).

Definition chose_cuda (device : string) (device_count : nat) (stdout : string)
  : option string :=
  if bool_decide (device = "cuda") && (1 <? device_count)
  then
    cuda_ram ← mapM int (memory_lines stdout);
    i ← max_by_key (fun i => nth i cuda_ram 0%Z) (seq 0 (length cuda_ram));
    Some (device +:+ ":" +:+ pretty i)
  else Some device.
End CudaReady.

(* int on the strings that the memory command prints: decimal digits with
   blanks around them; other strings are not needed to run the examples and
   are refused *)
Definition digit_value (c : Ascii.ascii) : option Z :=
  let n := Ascii.nat_of_ascii c in
  if (48 <=? n) && (n <=? 57) then Some (Z.of_nat (n - 48)) else None.

Fixpoint digits_value (acc : Z) (s : string) : option Z :=
  match s with
  | EmptyString => Some acc
  | String c s' =>
      if decide (c = " "%char)
      then (if forallb (fun c' => bool_decide (c' = " "%char)) (String.list_ascii_of_string s')
            then Some acc else None)
      else d ← digit_value c; digits_value (10 * acc + d) s'
  end.

Fixpoint int_decimal (s : string) : option Z :=
  match s with
  | EmptyString => None
  | String c s' =>
      if decide (c = " "%char) then int_decimal s'
      else d ← digit_value c; digits_value d s'
  end.

(** ** Exact real arithmetic as an instance *)

Definition Rnez (x : R) : bool := if Req_dec_T x 0 then false else true.
Definition Rgtb (x y : R) : bool := if Rlt_dec y x then true else false.

#[export] Instance R_float : FloatOps R := {|
  flit := fun n d => (IZR n / IZR (Zpos d))%R;
  fadd := Rplus;
  fsub := Rminus;
  fmul := Rmult;
  fdiv := Rdiv;
  fexp := exp;
  flog := ln;
  fnez := Rnez;
  fgt := Rgtb
|}.

(** * Properties *)

(** ** Position tags *)

Lemma tag_snoc {A} (l : list A) (x : A) : tag (l ++ [x]) = tag l ++ [(x, length l)].
Proof.
  unfold tag. rewrite length_app, seq_app. simpl.
  rewrite zip_with_app by (by rewrite length_seq). done.
Qed.

Lemma tag_fst {A} (l : list A) : (tag l).*1 = l.
Proof. unfold tag. apply fst_zip. by rewrite length_seq. Qed.

Lemma tag_snd {A} (l : list A) : (tag l).*2 = seq 0 (length l).
Proof. unfold tag. apply snd_zip. by rewrite length_seq. Qed.

Lemma length_tag {A} (l : list A) : length (tag l) = length l.
Proof. unfold tag. rewrite length_zip_with, length_seq. lia. Qed.

Lemma lookup_tag {A} (l : list A) (i : nat) : tag l !! i = (fun x => (x, i)) <$> l !! i.
Proof.
  unfold tag. rewrite lookup_zip_with.
  destruct (l !! i) as [x|] eqn:E; simpl; [|done].
  apply lookup_lt_Some in E. by rewrite lookup_seq_lt.
Qed.

(** ** Stable sorting by a numeric key *)

Section SortByKey.
Context {A : Type} (key : A -> nat).

Definition key_le (a b : A) : bool := key a <=? key b.
Definition bucket (e : nat) (l : list A) : list A := filter (fun a => key a = e) l.

Lemma insert_sorted_front (x : A) (l : list A) :
  Forall (fun y => key x <= key y) l -> insert_sorted key_le x l = x :: l.
Proof.
  destruct 1 as [|y l Hy _]; [done|]. simpl. unfold key_le.
  by rewrite (proj2 (Nat.leb_le _ _) Hy).
Qed.

Lemma insert_sorted_skip (x : A) (l1 l2 : list A) :
  Forall (fun y => key y < key x) l1 ->
  insert_sorted key_le x (l1 ++ l2) = l1 ++ insert_sorted key_le x l2.
Proof.
  induction 1 as [|y l1 Hy _ IH]; [done|]. simpl. unfold key_le at 1.
  rewrite (proj2 (Nat.leb_gt _ _) Hy). by rewrite IH.
Qed.

Lemma bucket_cons_eq (x : A) (l : list A) : bucket (key x) (x :: l) = x :: bucket (key x) l.
Proof. unfold bucket. by rewrite filter_cons_True. Qed.

Lemma bucket_cons_ne (e : nat) (x : A) (l : list A) :
  key x <> e -> bucket e (x :: l) = bucket e l.
Proof. intros. unfold bucket. by rewrite filter_cons_False. Qed.

Lemma bucket_key (e : nat) (l : list A) : Forall (fun y => key y = e) (bucket e l).
Proof. apply Forall_forall. intros y Hy. by apply list_elem_of_filter in Hy as [? _]. Qed.

Definition buckets (a n : nat) (l : list A) : list A :=
  mjoin ((fun e => bucket e l) <$> seq a n).

Lemma buckets_S (a n : nat) (l : list A) :
  buckets a (S n) l = bucket a l ++ buckets (S a) n l.
Proof. done. Qed.

Lemma buckets_ge (a n : nat) (l : list A) : Forall (fun y => a <= key y) (buckets a n l).
Proof.
  apply Forall_forall. intros y Hy. unfold buckets in Hy.
  apply list_elem_of_join in Hy as (l' & Hy & Hl').
  apply list_elem_of_fmap in Hl' as (e & -> & He).
  apply elem_of_seq in He. apply list_elem_of_filter in Hy as [? _]. lia.
Qed.

Lemma buckets_cons_lt (a n : nat) (x : A) (l : list A) :
  key x < a -> buckets a n (x :: l) = buckets a n l.
Proof.
  intros Hx. unfold buckets. f_equal. apply list_fmap_ext.
  intros i e He. apply list_elem_of_lookup_2, elem_of_seq in He.
  apply bucket_cons_ne. lia.
Qed.

Lemma insert_buckets (x : A) (l : list A) (n a : nat) :
  a <= key x < a + n ->
  insert_sorted key_le x (buckets a n l) = buckets a n (x :: l).
Proof.
  revert a. induction n as [|n IH]; intros a Hx; [lia|].
  rewrite !buckets_S.
  destruct (decide (key x = a)) as [<-|Hne].
  - rewrite bucket_cons_eq, buckets_cons_lt by lia.
    apply insert_sorted_front. apply Forall_app. split.
    + eapply Forall_impl; [apply bucket_key|]. simpl. intros; lia.
    + eapply Forall_impl; [apply buckets_ge|]. simpl. intros; lia.
  - rewrite bucket_cons_ne by done. rewrite insert_sorted_skip.
    + f_equal. apply IH. lia.
    + eapply Forall_impl; [apply bucket_key|]. simpl. intros; lia.
Qed.

Lemma stable_sort_buckets (l : list A) (n : nat) :
  Forall (fun x => key x < n) l -> stable_sort key_le l = buckets 0 n l.
Proof.
  induction 1 as [|x l Hx _ IH]; simpl.
  - unfold buckets. generalize 0. induction n as [|n IH]; intros a; [done|]. apply IH.
  - rewrite IH. apply insert_buckets. lia.
Qed.
End SortByKey.

Lemma stable_sort_sorted {A} (key : A -> nat) (l : list A) :
  StronglySorted (fun a b => key a <= key b) l -> stable_sort (key_le key) l = l.
Proof.
  induction 1 as [|x l _ IH Hx]; [done|]. simpl. rewrite IH.
  by apply insert_sorted_front.
Qed.

Lemma fmap_mjoin {A B} (f : A -> B) (ls : list (list A)) :
  f <$> mjoin ls = mjoin (fmap f <$> ls).
Proof. induction ls as [|l ls IH]; [done|]. csimpl. by rewrite fmap_app, IH. Qed.

Lemma filter_fmap_comm {A B} (f : A -> B) (P : B -> Prop) `{forall x, Decision (P x)}
    (l : list A) :
  filter P (f <$> l) = f <$> filter (fun x => P (f x)) l.
Proof.
  induction l as [|x l IH]; [done|]. csimpl. rewrite !filter_cons.
  destruct (decide (P (f x))); csimpl; by rewrite IH.
Qed.

Lemma filter_ext_elem {A} (P Q : A -> Prop) `{forall x, Decision (P x)}
    `{forall x, Decision (Q x)} (l : list A) :
  (forall x, x ∈ l -> P x <-> Q x) -> filter P l = filter Q l.
Proof.
  induction l as [|x l IH]; intros HPQ; [done|].
  rewrite !filter_cons.
  destruct (decide (P x)) as [HP|HP], (decide (Q x)) as [HQ|HQ].
  - f_equal. apply IH. intros; apply HPQ; by right.
  - exfalso. apply HQ, HPQ; [left|done].
  - exfalso. apply HP, HPQ; [left|done].
  - apply IH. intros; apply HPQ; by right.
Qed.

Lemma seq_snoc (n : nat) : seq 0 (S n) = seq 0 n ++ [n].
Proof. by rewrite seq_S. Qed.

(* entries of the second column of position-tagged keys are positions *)
Lemma tag_pos_lt {A} (l : list A) (p : A * nat) : p ∈ tag l -> snd p < length l.
Proof.
  intros Hp. apply list_elem_of_lookup in Hp as [i Hi].
  rewrite lookup_tag in Hi. destruct (l !! i) as [x|] eqn:E; [|done].
  simpl in Hi. injection Hi as <-. simpl. by apply lookup_lt_Some in E.
Qed.

(* sorting position-tagged keys, then reading a second column at the sorted
   positions, is sorting the rows by key *)
Lemma gather_bucket (nz : list (nat * nat)) (e : nat) :
  (fun i => nth i (nz.*1) 0) <$> (bucket fst e (tag (nz.*2))).*2
  = (filter (fun p => snd p = e) nz).*1.
Proof.
  induction nz as [|[b e'] nz IH] using rev_ind; [done|].
  rewrite !fmap_app. simpl. rewrite tag_snoc. unfold bucket in *.
  rewrite !filter_app, !fmap_app. f_equal.
  - rewrite <- IH. apply list_fmap_ext. intros i j Hj.
    apply list_elem_of_lookup_2, list_elem_of_fmap in Hj as (p & -> & Hp).
    apply list_elem_of_filter in Hp as [_ Hp]. apply tag_pos_lt in Hp.
    rewrite app_nth1; [done|]. rewrite length_fmap in *. done.
  - rewrite !filter_cons, !filter_nil. simpl.
    destruct (decide (e' = e)); [|done]. simpl.
    rewrite length_fmap, <- (length_fmap fst nz), nth_middle. done.
Qed.

Lemma bucket_fst_keys {B} (l : list (nat * B)) (e : nat) :
  (bucket fst e l).*1 = replicate (length (bucket fst e l)) e.
Proof.
  unfold bucket. induction l as [|[k v] l IH]; [done|].
  rewrite filter_cons. destruct (decide _) as [Hk|]; simpl in *; [|done].
  subst. f_equal. done.
Qed.

(** ** The index bookkeeping of SparseDispatcher *)

Section DispatcherFacts.
Context {T : Type} `{FloatOps T}.
Import SparseDispatcher.

(* the units whose gate for expert e is nonzero, resp. positive, ascending *)
Definition units_nz (g : list (list T)) (e : nat) : list nat :=
  filter (fun b => fnez (at2 g b e) = true) (seq 0 (length g)).
Definition units_of (g : list (list T)) (e : nat) : list nat :=
  filter (fun b => fpos (at2 g b e) = true) (seq 0 (length g)).

Lemma at2_app_l (g : list (list T)) (row : list T) (b e : nat) :
  b < length g -> at2 (g ++ [row]) b e = at2 g b e.
Proof. intros. unfold at2. by rewrite app_nth1. Qed.

Lemma at2_app_r (g : list (list T)) (row : list T) (e : nat) :
  at2 (g ++ [row]) (length g) e = nth e row f0.
Proof. unfold at2. by rewrite nth_middle. Qed.

Lemma nonzero_snoc (g : list (list T)) (row : list T) :
  nonzero (g ++ [row]) = nonzero g ++ nonzero_row (length g) row.
Proof.
  unfold nonzero. rewrite tag_snoc, fmap_app, join_app. simpl.
  by rewrite app_nil_r.
Qed.

Lemma nonzero_row_col (b e : nat) (row : list T) :
  filter (fun p => snd p = e) (nonzero_row b row)
  = if decide (e < length row) then if fnez (nth e row f0) then [(b, e)] else [] else [].
Proof.
  unfold nonzero_row. induction row as [|x row IH] using rev_ind; [done|].
  rewrite tag_snoc, filter_app, fmap_app, filter_app, IH, length_app. simpl.
  rewrite !filter_cons, !filter_nil. simpl.
  destruct (decide (e < length row)) as [Hlt|Hge];
    destruct (decide (e < length row + 1)) as [Hlt'|Hge']; try lia.
  - rewrite app_nth1 by done.
    destruct (decide (fnez x = true)); simpl; rewrite ?filter_cons, ?filter_nil; simpl;
      [|by rewrite app_nil_r].
    destruct (decide (length row = e)); [lia|]. by rewrite app_nil_r.
  - assert (e = length row) as -> by lia. rewrite nth_middle.
    destruct (decide (fnez x = true)) as [Ex|Ex]; simpl.
    + rewrite Ex, filter_cons, filter_nil. simpl. by rewrite decide_True.
    + apply not_true_is_false in Ex. by rewrite Ex.
  - destruct (decide (fnez x = true)); simpl; rewrite ?filter_cons, ?filter_nil; simpl;
      [|done].
    destruct (decide (length row = e)); [lia|done].
Qed.

Lemma nonzero_col (ne e : nat) (g : list (list T)) :
  Forall (fun row => length row = ne) g -> e < ne ->
  (filter (fun p => snd p = e) (nonzero g)).*1 = units_nz g e.
Proof.
  intros Hg He. induction g as [|row g IH] using rev_ind; [done|].
  apply Forall_app in Hg as [Hg Hrow]. rewrite Forall_singleton in Hrow.
  rewrite nonzero_snoc, filter_app, fmap_app, IH by done.
  unfold units_nz. rewrite length_app. simpl. rewrite Nat.add_1_r, seq_snoc, filter_app.
  f_equal.
  - apply filter_ext_elem. intros b Hb. apply elem_of_seq in Hb.
    rewrite at2_app_l by lia. done.
  - rewrite nonzero_row_col. rewrite decide_True by lia.
    rewrite filter_cons, filter_nil, at2_app_r.
    destruct (fnez (nth e row f0)); [by rewrite decide_True|by rewrite decide_False].
Qed.

Lemma nonzero_row_bounds (b : nat) (row : list T) (p : nat * nat) :
  p ∈ nonzero_row b row -> fst p = b /\ snd p < length row.
Proof.
  unfold nonzero_row. intros Hp.
  apply list_elem_of_fmap in Hp as (q & -> & Hq).
  apply list_elem_of_filter in Hq as [_ Hq]. apply tag_pos_lt in Hq. done.
Qed.

Lemma nonzero_bounds (ne : nat) (g : list (list T)) :
  Forall (fun row => length row = ne) g ->
  Forall (fun p => fst p < length g /\ snd p < ne) (nonzero g).
Proof.
  intros Hg. induction g as [|row g IH] using rev_ind; [constructor|].
  apply Forall_app in Hg as [Hg Hrow]. rewrite Forall_singleton in Hrow.
  rewrite nonzero_snoc, length_app. apply Forall_app. split.
  - eapply Forall_impl; [by apply IH|]. simpl. intros p [? ?]. lia.
  - apply Forall_forall. intros p Hp. apply nonzero_row_bounds in Hp. simpl. lia.
Qed.

Lemma nonzero_fst_lt (g : list (list T)) :
  Forall (fun p => fst p < length g) (nonzero g).
Proof.
  induction g as [|row g IH] using rev_ind; [constructor|].
  rewrite nonzero_snoc, length_app. apply Forall_app. split.
  - eapply Forall_impl; [apply IH|]. simpl. intros; lia.
  - apply Forall_forall. intros p Hp. apply nonzero_row_bounds in Hp. simpl. lia.
Qed.

Lemma tag_sorted (l : list nat) :
  StronglySorted le l ->
  StronglySorted (fun a b : nat * nat => fst a <= fst b) (tag l).
Proof.
  induction l as [|x l IH] using rev_ind; [constructor|]. intros Hs.
  apply StronglySorted_app in Hs as (Hlt & Hl & _). rewrite tag_snoc.
  apply StronglySorted_app. split_and!; [|by apply IH|repeat constructor].
  intros p q Hp Hq. apply list_elem_of_singleton in Hq as ->. simpl.
  apply (Hlt (fst p) x); [|by left].
  rewrite <- (tag_fst l). by apply list_elem_of_fmap_2.
Qed.

(* torch.nonzero lists the pairs row by row, so its first column ascends *)
Lemma nonzero_sorted (g : list (list T)) : StronglySorted le ((nonzero g).*1).
Proof.
  induction g as [|row g IH] using rev_ind; [constructor|].
  rewrite nonzero_snoc, fmap_app. apply StronglySorted_app. split_and!; [|done|].
  - intros b b' Hb Hb'.
    apply list_elem_of_fmap in Hb as (p & -> & Hp).
    apply list_elem_of_fmap in Hb' as (p' & -> & Hp').
    apply nonzero_row_bounds in Hp' as [-> _].
    pose proof (nonzero_fst_lt g) as Hall.
    rewrite Forall_forall in Hall. specialize (Hall _ Hp). lia.
  - assert (forall l : list (nat * nat), Forall (fun p => fst p = length g) l ->
              StronglySorted le (l.*1)) as Hconst.
    { induction 1 as [|p l Hp Hl IH']; [constructor|]. csimpl. constructor; [done|].
      apply Forall_fmap. eapply Forall_impl; [apply Hl|]. simpl. intros; lia. }
    apply Hconst. apply Forall_forall. intros p Hp. by apply nonzero_row_bounds in Hp as [? _].
Qed.

Lemma zip_with_mjoin {A B C} (f : A -> B -> C) (F : nat -> list A) (G : nat -> list B)
    (l : list nat) :
  (forall e, e ∈ l -> length (F e) = length (G e)) ->
  zip_with f (mjoin (F <$> l)) (mjoin (G <$> l))
  = mjoin ((fun e => zip_with f (F e) (G e)) <$> l).
Proof.
  intros Hlen. induction l as [|e l IH]; [done|]. csimpl.
  rewrite zip_with_app by (apply Hlen; left).
  rewrite IH; [done|]. intros; apply Hlen; by right.
Qed.

Lemma fmap_ext_seq {A} (f f' : nat -> A) (a n : nat) :
  (forall e, a <= e < a + n -> f e = f' e) -> f <$> seq a n = f' <$> seq a n.
Proof.
  intros Hf. apply list_fmap_ext. intros i e He.
  apply list_elem_of_lookup_2, elem_of_seq in He. by apply Hf.
Qed.

Lemma sort_col_buckets (ne : nat) (g : list (list T)) :
  Forall (fun row => length row = ne) g ->
  sort_col ((nonzero g).*2) = buckets fst 0 ne (tag ((nonzero g).*2)).
Proof.
  intros Hg. apply (stable_sort_buckets fst).
  apply Forall_forall. intros p Hp.
  assert (fst p ∈ (nonzero g).*2) as Hin.
  { rewrite <- (tag_fst ((nonzero g).*2)). by apply list_elem_of_fmap_2. }
  apply list_elem_of_fmap in Hin as (q & -> & Hq).
  pose proof (nonzero_bounds ne g Hg) as Hb. rewrite Forall_forall in Hb.
  by apply Hb in Hq as [_ ?].
Qed.

Lemma init_batch_index (ne : nat) (g : list (list T)) :
  Forall (fun row => length row = ne) g ->
  batch_index (init ne g) = mjoin (units_nz g <$> seq 0 ne).
Proof.
  intros Hg. unfold init. simpl.
  assert (sort_col ((nonzero g).*1) = tag ((nonzero g).*1)) as ->.
  { apply (stable_sort_sorted fst), tag_sorted, nonzero_sorted. }
  rewrite tag_fst, (sort_col_buckets ne) by done. unfold buckets.
  rewrite !fmap_mjoin, <- !list_fmap_compose. f_equal.
  apply fmap_ext_seq. intros e He. simpl.
  rewrite gather_bucket. apply (nonzero_col ne); [done|lia].
Qed.

Lemma init_expert_index (ne : nat) (g : list (list T)) :
  Forall (fun row => length row = ne) g ->
  expert_index (init ne g)
  = mjoin ((fun e => replicate (length (units_nz g e)) e) <$> seq 0 ne).
Proof.
  intros Hg. unfold init. simpl.
  rewrite (sort_col_buckets ne) by done. unfold buckets.
  rewrite !fmap_mjoin, <- !list_fmap_compose. f_equal.
  apply fmap_ext_seq. intros e He. simpl.
  rewrite bucket_fst_keys. f_equal.
  rewrite <- (nonzero_col ne) by (done || lia).
  rewrite <- gather_bucket, !length_fmap. done.
Qed.

Lemma init_nonzero_gates (ne : nat) (g : list (list T)) :
  Forall (fun row => length row = ne) g ->
  nonzero_gates (init ne g)
  = mjoin ((fun e => (fun b => at2 g b e) <$> units_nz g e) <$> seq 0 ne).
Proof.
  intros Hg.
  change (nonzero_gates (init ne g))
    with (zip_with (fun row e => nth e row f0)
            ((fun b => nth b g []) <$> batch_index (init ne g))
            (expert_index (init ne g))).
  rewrite init_batch_index, init_expert_index by done.
  rewrite zip_with_fmap_l, zip_with_mjoin by (intros; by rewrite length_replicate).
  f_equal. apply list_fmap_ext. intros _ e _.
  rewrite zip_with_replicate_r_eq by done. done.
Qed.

Lemma count_rows {A} (P : list A -> Prop) `{forall row, Decision (P row)}
    (g : list (list A)) :
  length (filter P g) = length (filter (fun b => P (nth b g [])) (seq 0 (length g))).
Proof.
  induction g as [|row g IH] using rev_ind; [done|].
  rewrite filter_app, length_app, IH, length_app. simpl.
  rewrite Nat.add_1_r, seq_snoc, filter_app, length_app. f_equal.
  - f_equal. apply filter_ext_elem. intros b Hb. apply elem_of_seq in Hb.
    rewrite app_nth1 by lia. done.
  - rewrite !filter_cons, !filter_nil, nth_middle. by destruct (decide (P row)).
Qed.

Lemma init_part_sizes (ne : nat) (g : list (list T)) :
  part_sizes (init ne g) = (fun e => length (units_of g e)) <$> seq 0 ne.
Proof.
  unfold init. simpl. unfold count_pos. apply list_fmap_ext. intros _ e _.
  by rewrite count_rows.
Qed.


Lemma split_sizes_mjoin {A} (ls : list (list A)) :
  split_sizes (mjoin ls) (length <$> ls) = Some ls.
Proof.
  induction ls as [|l ls IH]; [done|]. csimpl.
  rewrite decide_True by (rewrite length_app; lia).
  rewrite drop_app_length, IH, take_app_length. done.
Qed.

Lemma mapM_app {A B} (f : A -> option B) (l1 l2 : list A) :
  mapM f (l1 ++ l2) = y1 ← mapM f l1; y2 ← mapM f l2; Some (y1 ++ y2).
Proof.
  induction l1 as [|x l1 IH]; simpl.
  - by destruct (mapM f l2).
  - destruct (f x); simpl; [|done]. rewrite IH.
    destruct (mapM f l1); simpl; [|done]. by destruct (mapM f l2).
Qed.

Lemma mapM_mjoin {A B} (f : A -> option B) (ls : list (list A)) :
  mapM f (mjoin ls) = mjoin <$> mapM (mapM f) ls.
Proof.
  induction ls as [|l ls IH]; [done|]. simpl. rewrite mapM_app, IH.
  destruct (mapM f l); simpl; [|done]. by destruct (mapM (mapM f) ls).
Qed.

Lemma units_nz_of (ne e : nat) (g : list (list T)) :
  Forall (fun row => length row = ne) g ->
  Forall (Forall (fun x => fnez x = fpos x)) g ->
  e < ne -> units_nz g e = units_of g e.
Proof.
  intros Hg Hnn He. apply filter_ext_elem. intros b Hb. apply elem_of_seq in Hb.
  destruct (nth_lookup_or_length g b []) as [Hrow|]; [|lia].
  pose proof (Forall_lookup_1 _ _ _ _ Hg Hrow) as Hlen. simpl in Hlen.
  pose proof (Forall_lookup_1 _ _ _ _ Hnn Hrow) as Hrn. simpl in Hrn.
  destruct (nth_lookup_or_length (nth b g []) e f0) as [Hx|]; [|lia].
  pose proof (Forall_lookup_1 _ _ _ _ Hrn Hx) as Hx'. simpl in Hx'.
  unfold at2. by rewrite Hx'.
Qed.

Lemma units_of_spec (g : list (list T)) (e b : nat) :
  b ∈ units_of g e <-> b < length g /\ fpos (at2 g b e) = true.
Proof. unfold units_of. rewrite list_elem_of_filter, elem_of_seq. intuition lia. Qed.


Lemma dispatch_parts {A} (ne : nat) (g : list (list T)) (inp : list A) :
  Forall (fun row => length row = ne) g ->
  Forall (Forall (fun x => fnez x = fpos x)) g ->
  length inp = length g ->
  exists parts,
    dispatch (init ne g) inp = Some parts /\
    Forall2 (fun e part => Forall2 (fun b a => inp !! b = Some a) (units_of g e) part)
            (seq 0 ne) parts.
Proof.
  intros Hg Hnn Hlen. unfold dispatch, index_rows.
  rewrite init_batch_index, init_part_sizes by done.
  rewrite (fmap_ext_seq (units_nz g) (units_of g)) by (intros; apply (units_nz_of ne); done || lia).
  rewrite mapM_mjoin.
  destruct (mapM (mapM (fun i => inp !! i)) (units_of g <$> seq 0 ne)) as [parts|] eqn:E.
  - exists parts. apply mapM_Some in E. split.
    + simpl.
      assert ((fun e => length (units_of g e)) <$> seq 0 ne = length <$> parts) as ->.
      { apply Forall2_fmap_l in E. clear -E.
        induction E as [|e part es parts He _ IH]; [done|]. csimpl.
        apply mapM_Some, Forall2_length in He. by rewrite He, IH. }
      apply split_sizes_mjoin.
    + apply Forall2_fmap_l in E. eapply Forall2_impl; [apply E|].
      simpl. intros e part He. by apply mapM_Some in He.
  - exfalso. apply mapM_None in E. apply Exists_exists in E as (l & Hl & E).
    apply list_elem_of_fmap in Hl as (e & -> & _).
    apply mapM_None in E. apply Exists_exists in E as (b & Hb & E).
    apply units_of_spec in Hb as [Hb _]. apply lookup_ge_None in E. lia.
Qed.
End DispatcherFacts.

(** ** Picking a unit out of a partition *)

Section Rank.
Context (P : nat -> Prop) `{forall b, Decision (P b)}.

(* how many of the units below b satisfy P *)
Definition rank (b : nat) : nat := length (filter P (seq 0 b)).

Lemma rank_S (n : nat) : rank (S n) = rank n + (if decide (P n) then 1 else 0).
Proof.
  unfold rank. rewrite seq_snoc, filter_app, length_app. f_equal.
  rewrite filter_cons, filter_nil. by destruct (decide (P n)).
Qed.

Lemma rank_mono (b n : nat) : b <= n -> rank b <= rank n.
Proof. induction 1 as [|n _ IH]; [done|]. rewrite rank_S. lia. Qed.

Lemma rank_lt (b n : nat) : b < n -> P b -> rank b < rank n.
Proof.
  intros Hb HP. assert (rank (S b) <= rank n) by (apply rank_mono; lia).
  rewrite rank_S, decide_True in * by done. lia.
Qed.

Lemma filter_seq_lookup_rank (b n : nat) :
  b < n -> P b -> filter P (seq 0 n) !! rank b = Some b.
Proof.
  intros Hb HP. induction n as [|n IH]; [lia|].
  rewrite seq_snoc, filter_app, filter_cons, filter_nil.
  destruct (decide (b = n)) as [->|Hne].
  - rewrite decide_True by done. by rewrite list_lookup_middle.
  - rewrite lookup_app_l; [apply IH; lia|]. apply (rank_lt b n); [lia|done].
Qed.

Lemma zip_filter_seq_pick {A} (n : nat) (rows : list A) (b : nat) :
  length rows = rank n ->
  filter (fun p => fst p = b) (zip (filter P (seq 0 n)) rows)
  = if decide (b < n /\ P b)
    then (fun r => (b, r)) <$> option_list (rows !! rank b) else [].
Proof.
  revert rows. induction n as [|n IH]; intros rows Hlen.
  { rewrite decide_False by lia. done. }
  rewrite rank_S in Hlen. rewrite seq_snoc, filter_app, filter_cons, filter_nil.
  destruct (decide (P n)) as [HPn|HPn].
  - destruct rows as [|r rows _] using rev_ind.
    { simpl in Hlen. lia. }
    rewrite length_app in Hlen. simpl in Hlen.
    rewrite zip_with_app by (fold (rank n); lia).
    rewrite filter_app, IH by lia. simpl. rewrite filter_cons, filter_nil. simpl.
    destruct (decide (b < n /\ P b)) as [[Hb HPb]|Hnb];
      destruct (decide (b < S n /\ P b)) as [[Hb' HPb']|Hnb'];
      destruct (decide (n = b)) as [->|Hne]; try lia;
      rewrite ?app_nil_r; simpl.
    + rewrite lookup_app_l; [done|]. pose proof (rank_lt b n Hb HPb). lia.
    + exfalso. apply Hnb'. split; [lia|done].
    + assert (rank b = length rows) as -> by lia.
      by rewrite list_lookup_middle.
    + exfalso. apply Hnb. split; [lia|done].
    + exfalso. apply Hnb'. split; [lia|done].
    + done.
  - rewrite app_nil_r, IH by lia.
    destruct (decide (b < n /\ P b)) as [[Hb HPb]|Hnb];
      destruct (decide (b < S n /\ P b)) as [[Hb' HPb']|Hnb']; try done.
    + exfalso. apply Hnb'. split; [lia|done].
    + exfalso. destruct (decide (b = n)) as [->|]; [done|]. apply Hnb. split; [lia|done].
Qed.
End Rank.

Lemma mjoin_if_singleton {A B} (Q : A -> Prop) `{forall e, Decision (Q e)}
    (x : A -> B) (l : list A) :
  mjoin ((fun e => if decide (Q e) then [x e] else []) <$> l) = x <$> filter Q l.
Proof.
  induction l as [|e l IH]; [done|]. csimpl. rewrite filter_cons, IH.
  by destruct (decide (Q e)).
Qed.

Lemma filter_mjoin {A} (P : A -> Prop) `{forall x, Decision (P x)} (ls : list (list A)) :
  filter P (mjoin ls) = mjoin (filter P <$> ls).
Proof. induction ls as [|l ls IH]; [done|]. csimpl. by rewrite filter_app, IH. Qed.

(** ** Accumulation by index *)

Section Accumulate.
Context {T : Type} `{FloatOps T}.
Import SparseDispatcher.

Definition add_at (acc : list (list T)) (p : nat * list T) : list (list T) :=
  alter (fun row => vadd row (snd p)) (fst p) acc.

Lemma fold_add_at_lookup (ps : list (nat * list T)) (acc : list (list T)) (b : nat) :
  fold_left add_at ps acc !! b
  = (fun row => fold_left vadd (snd <$> filter (fun p => fst p = b) ps) row) <$> acc !! b.
Proof.
  revert acc. induction ps as [|[i v] ps IH]; intros acc; simpl.
  - by destruct (acc !! b).
  - rewrite IH. unfold add_at at 1. simpl. rewrite filter_cons. simpl.
    destruct (decide (i = b)) as [->|Hne].
    + rewrite list_lookup_alter_eq. by destruct (acc !! b).
    + by rewrite list_lookup_alter_ne.
Qed.

Lemma length_fold_add_at (ps : list (nat * list T)) (acc : list (list T)) :
  length (fold_left add_at ps acc) = length acc.
Proof.
  revert acc. induction ps as [|p ps IH]; intros acc; simpl; [done|].
  rewrite IH. apply length_alter.
Qed.

Lemma fold_vadd_lookup (feat : nat) (cs : list (list T)) (z : list T) (j : nat) :
  Forall (fun c => length c = feat) cs -> length z = feat -> j < feat ->
  fold_left vadd cs z !! j
  = Some (fold_left fadd ((fun c => nth j c f0) <$> cs) (nth j z f0)).
Proof.
  intros Hcs. revert z. induction Hcs as [|c cs Hc _ IH]; intros z Hz Hj; simpl.
  - destruct (nth_lookup_or_length z j f0); [done|lia].
  - rewrite IH; [|unfold vadd; rewrite length_zip_with; lia|done].
    do 2 f_equal. unfold vadd.
    destruct (nth_lookup_or_length z j f0) as [Ez|]; [|lia].
    destruct (nth_lookup_or_length c j f0) as [Ec|]; [|lia].
    apply nth_lookup_Some. by rewrite lookup_zip_with, Ez, Ec.
Qed.

Lemma length_fold_vadd (feat : nat) (cs : list (list T)) (z : list T) :
  Forall (fun c => length c = feat) cs -> length z = feat ->
  length (fold_left vadd cs z) = feat.
Proof.
  intros Hcs. revert z. induction Hcs as [|c cs Hc _ IH]; intros z Hz; simpl; [done|].
  apply IH. unfold vadd. rewrite length_zip_with. lia.
Qed.

Lemma fold_vadd_rows (feat : nat) (cs : list (list T)) :
  Forall (fun c => length c = feat) cs ->
  fold_left vadd cs (replicate feat f0)
  = (fun j => fsum ((fun c => nth j c f0) <$> cs)) <$> seq 0 feat.
Proof.
  intros Hcs. apply list_eq. intros j.
  destruct (decide (j < feat)) as [Hj|Hj].
  - rewrite (fold_vadd_lookup feat) by (done || apply length_replicate).
    rewrite list_lookup_fmap, lookup_seq_lt by done. simpl. f_equal.
    unfold fsum. f_equal. apply nth_lookup_Some. by apply lookup_replicate_2.
  - rewrite !(proj2 (lookup_ge_None _ _)); [done| |].
    + rewrite length_fmap, length_seq. lia.
    + rewrite (length_fold_vadd feat); [lia|done|apply length_replicate].
Qed.
End Accumulate.

(** ** What combine computes, unit by unit *)

Section CombineFacts.
Context {T : Type} `{FloatOps T}.
Import SparseDispatcher.
Local Arguments init : simpl never.

(* the experts that unit b is routed to, ascending *)
Definition experts_of (ne : nat) (g : list (list T)) (b : nat) : list nat :=
  filter (fun e => fpos (at2 g b e) = true) (seq 0 ne).

(* the row that expert e returned for unit b: its place in the sub-batch of
   e is the number of units below b that are routed to e *)
Definition expert_row (g : list (list T)) (outs : list (list (list T))) (e b : nat)
  : list T :=
  nth (rank (fun b' => fpos (at2 g b' e) = true) b) (nth e outs []) [].

Definition nz_or_eps (x : T) : T := if fnez x then x else eps.

(* feature j of that row *)
Definition expert_out_at (g : list (list T)) (outs : list (list (list T)))
    (e b j : nat) : T :=
  nth j (expert_row g outs e b) f0.

(* the contribution of expert e to feature j of unit b *)
Definition term (g : list (list T)) (outs : list (list (list T))) (mul : bool)
    (b j e : nat) : T :=
  let v := fexp (expert_out_at g outs e b j) in
  if mul then fmul (at2 g b e) v else v.

Definition unit_output (ne feat : nat) (g : list (list T))
    (outs : list (list (list T))) (mul : bool) (b : nat) : list T :=
  (fun j => flog (nz_or_eps (fsum (term g outs mul b j <$> experts_of ne g b))))
    <$> seq 0 feat.

(* expert outputs that fit the partition: one tensor per expert, with one
   row of [feat] elements per unit routed to it *)
Definition outputs_fit (ne feat : nat) (g : list (list T))
    (outs : list (list (list T))) : Prop :=
  length outs = ne /\
  (forall e out, outs !! e = Some out -> length out = length (units_of g e)) /\
  Forall (Forall (fun row => length row = feat)) outs.

Section Fixed.
Context (ne feat : nat) (g : list (list T)) (outs : list (list (list T))) (mul : bool).
Hypothesis Hg : Forall (fun row => length row = ne) g.
Hypothesis Hnn : Forall (Forall (fun x => fnez x = fpos x)) g.
Hypothesis Hfit : outputs_fit ne feat g outs.

Let F (e : nat) : list (list T) := nth e outs [].
Let rows (e : nat) : list (list T) :=
  if mul then zip_with vscale ((fun b => at2 g b e) <$> units_of g e) (map2d fexp (F e))
  else map2d fexp (F e).

Lemma outs_as_F : outs = F <$> seq 0 ne.
Proof using Hfit.
  destruct Hfit as (Hlen & _ & _). apply list_eq. intros e.
  rewrite list_lookup_fmap. destruct (decide (e < ne)) as [He|He].
  - rewrite lookup_seq_lt by done. simpl. unfold F.
    destruct (nth_lookup_or_length outs e []); [done|lia].
  - rewrite lookup_seq_ge by lia. apply lookup_ge_None. lia.
Qed.

Lemma length_F (e : nat) : e < ne -> length (F e) = length (units_of g e).
Proof using Hfit.
  destruct Hfit as (Hlen & Hfit' & _). intros He. apply Hfit'. unfold F.
  destruct (nth_lookup_or_length outs e []); [done|lia].
Qed.

Lemma length_rows (e : nat) : e < ne -> length (rows e) = length (units_of g e).
Proof using Hfit.
  intros He. unfold rows. destruct mul.
  - unfold map2d. rewrite length_zip_with, !length_fmap, length_F by done. lia.
  - unfold map2d. by rewrite length_fmap, length_F.
Qed.

Lemma F_rows_feat (e i : nat) (row : list T) :
  F e !! i = Some row -> length row = feat.
Proof using Hfit.
  destruct Hfit as (_ & _ & Hfeat). unfold F. intros Hrow.
  destruct (nth_lookup_or_length outs e []) as [Ho|Ho].
  - eapply (Forall_lookup_1 _ _ _ _ (Forall_lookup_1 _ _ _ _ Hfeat Ho) Hrow).
  - rewrite nth_overflow in Hrow by done. done.
Qed.

(* the rows that reach index_add, grouped by expert *)
Lemma stitched_rows :
  (if mul then mul_gates (map2d fexp (mjoin outs)) (nonzero_gates (init ne g))
   else Some (map2d fexp (mjoin outs)))
  = Some (mjoin (rows <$> seq 0 ne)).
Proof using Hg Hnn Hfit.
  assert (map2d fexp (mjoin outs) = mjoin ((fun e => map2d fexp (F e)) <$> seq 0 ne)) as ->.
  { unfold map2d. rewrite fmap_mjoin. rewrite outs_as_F at 1.
    by rewrite <- list_fmap_compose. }
  unfold rows. destruct mul; [|done].
  rewrite init_nonzero_gates by done.
  rewrite (fmap_ext_seq (fun e => (fun b => at2 g b e) <$> units_nz g e)
             (fun e => (fun b => at2 g b e) <$> units_of g e))
    by (intros; rewrite (units_nz_of ne); done || lia).
  unfold mul_gates. rewrite decide_True.
  - f_equal. rewrite zip_with_mjoin; [done|].
    intros e He. apply elem_of_seq in He. unfold map2d.
    rewrite !length_fmap, length_F by lia. done.
  - rewrite !length_join, <- !list_fmap_compose. f_equal.
    apply fmap_ext_seq. intros e He. unfold map2d. simpl.
    rewrite !length_fmap, length_F by lia. done.
Qed.

Local Abbreviation routed_to e := (fun b' : nat => fpos (at2 g b' e) = true).

(* the row that expert e contributes to unit b *)
Let row_term (b e : nat) : list T :=
  let r := fexp <$> expert_row g outs e b in
  if mul then vscale (at2 g b e) r else r.

Lemma rows_pick (b e : nat) :
  b < length g -> e < ne -> fpos (at2 g b e) = true ->
  rows e !! rank (routed_to e) b = Some (row_term b e).
Proof using Hfit.
  intros Hb He Hr.
  pose proof (filter_seq_lookup_rank (routed_to e) b (length g) Hb Hr) as Hu.
  fold (units_of g e) in Hu.
  assert (rank (routed_to e) b < length (F e)) as Hlt.
  { rewrite length_F by done. by apply lookup_lt_Some in Hu. }
  destruct (nth_lookup_or_length (F e) (rank (routed_to e) b) []) as [HF|]; [|lia].
  unfold rows, row_term, expert_row, map2d. fold (F e). destruct mul.
  - rewrite lookup_zip_with, !list_lookup_fmap. fold (units_of g e).
    by rewrite Hu, HF.
  - by rewrite list_lookup_fmap, HF.
Qed.

Lemma contributions (b : nat) :
  b < length g ->
  snd <$> filter (fun p => fst p = b)
            (zip (batch_index (init ne g)) (mjoin (rows <$> seq 0 ne)))
  = row_term b <$> experts_of ne g b.
Proof using Hg Hnn Hfit.
  intros Hb. rewrite init_batch_index by done.
  rewrite (fmap_ext_seq (units_nz g) (units_of g))
    by (intros; apply (units_nz_of ne); done || lia).
  rewrite zip_with_mjoin
    by (intros e He; apply elem_of_seq in He; rewrite length_rows by lia; done).
  rewrite filter_mjoin, fmap_mjoin, <- !list_fmap_compose.
  rewrite (fmap_ext_seq _ (fun e => if decide (fpos (at2 g b e) = true) then [row_term b e] else [])).
  - apply mjoin_if_singleton.
  - intros e He. simpl. unfold units_of.
    rewrite (zip_filter_seq_pick (routed_to e))
      by (rewrite length_rows by lia; done).
    destruct (decide (fpos (at2 g b e) = true)) as [Hr|Hr].
    + rewrite decide_True by done. rewrite rows_pick by (done || lia). done.
    + rewrite decide_False; [done|]. by intros [_ ?].
Qed.

Lemma length_row_term (b e : nat) :
  b < length g -> e ∈ experts_of ne g b -> length (row_term b e) = feat.
Proof using Hfit.
  intros Hb He. apply list_elem_of_filter in He as [Hr He]. apply elem_of_seq in He.
  pose proof (rows_pick b e Hb ltac:(lia) Hr) as Hp.
  assert (length (expert_row g outs e b) = feat) as Hlen.
  { unfold expert_row. fold (F e).
    pose proof (filter_seq_lookup_rank (routed_to e) b (length g) Hb Hr) as Hu.
    fold (units_of g e) in Hu. apply lookup_lt_Some in Hu.
    rewrite <- length_F in Hu by lia.
    destruct (nth_lookup_or_length (F e) (rank (routed_to e) b) []) as [HF|]; [|lia].
    by apply F_rows_feat in HF. }
  unfold row_term. destruct mul; unfold vscale; by rewrite !length_fmap.
Qed.

Lemma nth_row_term (b e j : nat) :
  b < length g -> e ∈ experts_of ne g b -> j < feat ->
  nth j (row_term b e) f0 = term g outs mul b j e.
Proof using Hfit.
  intros Hb He Hj. pose proof (length_row_term b e Hb He) as Hlen.
  unfold row_term, term, expert_out_at in *. simpl in *.
  assert (length (expert_row g outs e b) = feat) as Hlen'.
  { destruct mul; unfold vscale in Hlen; by rewrite !length_fmap in Hlen. }
  destruct (nth_lookup_or_length (expert_row g outs e b) j f0) as [Hx|]; [|lia].
  apply nth_lookup_Some. destruct mul; unfold vscale;
    by rewrite !list_lookup_fmap, Hx.
Qed.

Lemma combine_units :
  ne <> 0 ->
  combine (init ne g) feat outs mul
  = Some (unit_output ne feat g outs mul <$> seq 0 (length g)).
Proof using Hg Hnn Hfit.
  intros Hne. unfold combine.
  destruct Hfit as (Hlen & Hsz & Hfeat).
  destruct (decide (outs = [])) as [->|_]; [simpl in Hlen; lia|].
  assert (forallb (forallb (fun row : list T => length row =? feat)) outs = true) as ->.
  { apply Is_true_eq_true, forallb_True. eapply Forall_impl; [apply Hfeat|].
    simpl. intros out Hout. apply forallb_True. eapply Forall_impl; [apply Hout|].
    simpl. intros row Hrow. apply Is_true_eq_left, Nat.eqb_eq, Hrow. }
  cbn -[init]. rewrite stitched_rows. cbn -[init].
  change (gates (init ne g)) with g.
  unfold index_add.
  assert (length (batch_index (init ne g)) = length (mjoin (rows <$> seq 0 ne))) as Hbl.
  { rewrite init_batch_index by done. rewrite !length_join, <- !list_fmap_compose.
    f_equal. apply fmap_ext_seq. intros e He. simpl.
    rewrite length_rows by lia. unfold units_of, units_nz. f_equal.
    apply filter_ext_elem. intros b Hb. apply elem_of_seq in Hb.
    fold (units_nz g e). fold (units_of g e).
    pose proof (units_nz_of ne e g Hg Hnn ltac:(lia)) as Hu.
    unfold units_nz, units_of in Hu.
    assert (b ∈ seq 0 (length g)) as Hin by (apply elem_of_seq; lia).
    split; intros Hx.
    - assert (b ∈ filter (fun b => fnez (at2 g b e) = true) (seq 0 (length g))) as Hy
        by (by apply list_elem_of_filter).
      rewrite Hu in Hy. by apply list_elem_of_filter in Hy as [? _].
    - assert (b ∈ filter (fun b => fpos (at2 g b e) = true) (seq 0 (length g))) as Hy
        by (by apply list_elem_of_filter).
      rewrite <- Hu in Hy. by apply list_elem_of_filter in Hy as [? _]. }
  rewrite decide_True by done.
  assert (forallb (fun i => i <? length (replicate (length g) (replicate feat f0)))
            (batch_index (init ne g)) = true) as ->.
  { apply Is_true_eq_true, forallb_True, Forall_forall. intros b Hb.
    rewrite init_batch_index in Hb by done.
    apply list_elem_of_join in Hb as (l & Hb & Hl).
    apply list_elem_of_fmap in Hl as (e & -> & _).
    apply list_elem_of_filter in Hb as [_ Hb]. apply elem_of_seq in Hb.
    apply Is_true_eq_left, Nat.ltb_lt. rewrite length_replicate. lia. }
  cbn -[init]. f_equal. apply list_eq. intros b.
  unfold map2d. rewrite !list_lookup_fmap.
  change (fold_left _ ?ps ?acc) with (fold_left add_at ps acc).
  rewrite fold_add_at_lookup.
  destruct (decide (b < length g)) as [Hb|Hb].
  - rewrite lookup_replicate_2, lookup_seq_lt by done. simpl. f_equal.
    rewrite contributions by done.
    rewrite (fold_vadd_rows feat).
    + unfold unit_output. rewrite <- !list_fmap_compose.
      apply fmap_ext_seq. intros j Hj. simpl.
      assert ((fun c : list T => nth j c f0) <$> (row_term b <$> experts_of ne g b)
              = term g outs mul b j <$> experts_of ne g b) as ->; [|done].
      rewrite <- list_fmap_compose. apply list_fmap_ext. intros i e He.
      apply list_elem_of_lookup_2 in He. simpl. apply nth_row_term; done || lia.
    + apply Forall_forall. intros c Hc.
      apply list_elem_of_fmap in Hc as (e & -> & He). by apply length_row_term.
  - rewrite (proj1 (lookup_replicate_None _ _ _)) by lia.
    rewrite lookup_seq_ge by lia. done.
Qed.
End Fixed.
End CombineFacts.

(** ** Facts about the instance on the reals *)

Section RealFacts.
Local Open Scope R_scope.

Lemma Rf0 : @f0 R _ = 0.
Proof. unfold f0. simpl. lra. Qed.

Lemma Rf1 : @f1 R _ = 1.
Proof. unfold f1. simpl. lra. Qed.

Lemma Rnez_true (x : R) : fnez x = true <-> x <> 0.
Proof. simpl. unfold Rnez. destruct (Req_dec_T x 0); split; intros; congruence. Qed.

Lemma Rnez_false (x : R) : fnez x = false <-> x = 0.
Proof. simpl. unfold Rnez. destruct (Req_dec_T x 0); split; intros; congruence. Qed.

Lemma Rgt_true (x y : R) : fgt x y = true <-> y < x.
Proof. simpl. unfold Rgtb. destruct (Rlt_dec y x); split; intros; congruence. Qed.

Lemma Rgt_false (x y : R) : fgt x y = false <-> x <= y.
Proof.
  simpl. unfold Rgtb. destruct (Rlt_dec y x); split; intros; try congruence; lra.
Qed.

Lemma Rpos_true (x : R) : fpos x = true <-> 0 < x.
Proof. unfold fpos. rewrite Rgt_true, Rf0. done. Qed.

Lemma Rpos_false (x : R) : fpos x = false <-> x <= 0.
Proof. unfold fpos. rewrite Rgt_false, Rf0. done. Qed.

Lemma R_nonneg_tests (x : R) : 0 <= x -> fnez x = fpos x.
Proof.
  intros Hx. destruct (fpos x) eqn:E.
  - apply Rpos_true in E. apply Rnez_true. lra.
  - apply Rpos_false in E. apply Rnez_false. lra.
Qed.

Lemma R_nonneg_gates (g : list (list R)) :
  Forall (Forall (fun x => 0 <= x)) g -> Forall (Forall (fun x => fnez x = fpos x)) g.
Proof.
  intros Hg. eapply Forall_impl; [apply Hg|]. simpl. intros row Hrow.
  eapply Forall_impl; [apply Hrow|]. simpl. apply R_nonneg_tests.
Qed.

Lemma Reps_pos : 0 < @SparseDispatcher.eps R _.
Proof.
  unfold SparseDispatcher.eps. simpl. apply Rdiv_lt_0_compat; [lra|].
  apply IZR_lt. done.
Qed.

Lemma fold_Rplus_acc (l : list R) (a : R) : fold_left Rplus l a = a + fold_left Rplus l 0.
Proof.
  revert a. induction l as [|x l IH]; intros a; simpl; [lra|].
  rewrite (IH (a + x)), (IH (0 + x)). lra.
Qed.

Lemma fsum_R (l : list R) : fsum l = fold_left Rplus l 0.
Proof. unfold fsum. rewrite Rf0. done. Qed.

Lemma fsum_cons (x : R) (l : list R) : fsum (x :: l) = x + fsum l.
Proof. rewrite !fsum_R. simpl. rewrite fold_Rplus_acc. lra. Qed.

Lemma fsum_nil : @fsum R _ [] = 0.
Proof. by rewrite fsum_R. Qed.

Lemma fsum_app (l k : list R) : fsum (l ++ k) = fsum l + fsum k.
Proof.
  induction l as [|x l IH]; simpl.
  - rewrite fsum_nil. lra.
  - rewrite !fsum_cons, IH. lra.
Qed.

Lemma fsum_nonneg (l : list R) : Forall (fun x => 0 <= x) l -> 0 <= fsum l.
Proof.
  induction 1 as [|x l Hx _ IH]; [rewrite fsum_nil; lra|]. rewrite fsum_cons. lra.
Qed.

Lemma fsum_pos (l : list R) : l <> [] -> Forall (fun x => 0 < x) l -> 0 < fsum l.
Proof.
  intros Hne Hl. destruct Hl as [|x l Hx Hl]; [done|]. rewrite fsum_cons.
  assert (0 <= fsum l); [|lra].
  apply fsum_nonneg. eapply Forall_impl; [apply Hl|]. simpl. intros; lra.
Qed.

Lemma fsum_const (c : R) {A} (l : list A) : fsum ((fun _ => c) <$> l) = INR (length l) * c.
Proof.
  induction l as [|x l IH].
  - simpl. rewrite fsum_nil. lra.
  - rewrite fmap_cons, fsum_cons, IH. change (length (x :: l)) with (S (length l)).
    rewrite S_INR. lra.
Qed.
End RealFacts.

(** ** combine over the reals *)

Section CombineReal.
Local Open Scope R_scope.
Import SparseDispatcher.

Context (ne feat : nat) (g : list (list R)) (outs : list (list (list R))).
Hypothesis Hg : Forall (fun row => length row = ne) g.
Hypothesis Hnn : Forall (Forall (fun x => 0 <= x)) g.







Lemma accumulated_unrouted (mul : bool) (b j : nat) :
  experts_of ne g b = [] ->
  nz_or_eps (fsum (term g outs mul b j <$> experts_of ne g b)) = eps.
Proof.
  intros ->. unfold nz_or_eps. rewrite fmap_nil, fsum_nil.
  by rewrite (proj2 (Rnez_false 0)).
Qed.

End CombineReal.

(** * The claims about SparseDispatcher *)

Section DispatcherClaims.
Local Open Scope R_scope.
Import SparseDispatcher.



















End DispatcherClaims.

Section DispatchOrder.
Context {T : Type} `{FloatOps T}.
Import SparseDispatcher.

End DispatchOrder.



(** * The claims about MoEKANConvBase *)

(** ** Construction *)

Section Construction.
Context {T : Type} `{FloatOps T}.
Import MoEKANConvBase.

Definition constructed (r : result (@t T)) : bool :=
  match r with Ok _ => true | _ => false end.

(** C7 (amended): construction fails with the assertion error when k > E
    (for tensor sizes that are not negative), fails in torch.zeros when E < 0
    and succeeds whenever k <= E and the sizes are not negative, so also
    whenever 1 <= k <= E; k < 1 is not rejected. *)
Theorem init_checks_k_le_num_experts (conv : expert) (input_size output_size : Z)
    (num_experts : Z) (noisy_gating : bool) (k : Z) :
  (0 <= input_size)%Z ->
  ((num_experts < 0)%Z ->
   init conv input_size output_size num_experts noisy_gating k = RuntimeError) /\
  ((0 <= num_experts < k)%Z ->
   init conv input_size output_size num_experts noisy_gating k = AssertionError) /\
  ((0 <= num_experts)%Z -> (k <= num_experts)%Z ->
   exists self,
     init conv input_size output_size num_experts noisy_gating k = Ok self /\
     MoEKANConvBase.k self = k /\ MoEKANConvBase.num_experts self = num_experts /\
     length (experts self) = Z.to_nat num_experts) /\
  ((1 <= k <= num_experts)%Z ->
   constructed (init conv input_size output_size num_experts noisy_gating k) = true).
Proof.
  intros Hin. unfold init.
  assert ((input_size <? 0)%Z = false) as -> by lia. simpl.
  split_and!.
  - intros HE. by rewrite (proj2 (Z.ltb_lt _ _) HE).
  - intros [HE Hk]. rewrite (proj2 (Z.ltb_ge _ _) HE), (proj2 (Z.leb_gt _ _) Hk). done.
  - intros HE Hk. rewrite (proj2 (Z.ltb_ge _ _) HE), (proj2 (Z.leb_le _ _) Hk).
    eexists. split_and!; try done. simpl. by rewrite length_replicate.
  - intros [Hk HE].
    rewrite (proj2 (Z.ltb_ge _ _)) by lia. by rewrite (proj2 (Z.leb_le _ _) HE).
Qed.
End Construction.

Lemma init_checks_k_le_num_experts_witness :
  constructed (MoEKANConvBase.init (T := R) (fun _ => []) 3 8 16 true 4) = true.
Proof.
  apply (init_checks_k_le_num_experts (T := R) (fun _ => []) 3 8 16 true 4); lia.
Defined.

(* what the specification promises about construction *)
Definition construction_claim (input_size output_size num_experts : Z)
    (noisy_gating : bool) (k : Z) : Prop :=
  ((k > num_experts \/ num_experts < 1 \/ k < 1)%Z ->
   constructed (MoEKANConvBase.init (T := R) (fun _ => []) input_size output_size
                  num_experts noisy_gating k) = false) /\
  ((1 <= k <= num_experts)%Z ->
   constructed (MoEKANConvBase.init (T := R) (fun _ => []) input_size output_size
                  num_experts noisy_gating k) = true).

(* k = 0 with one expert is accepted *)
Lemma construction_counterexample : ~ construction_claim 3 8 1 true 0.
Proof. intros [Hfail _]. assert (true = false) by (apply Hfail; lia). done. Qed.

(** ** Sorting is a permutation, and sorts *)

Section SortFacts.
Context {A : Type} (le : A -> A -> bool).

Lemma insert_sorted_perm (x : A) (l : list A) : insert_sorted le x l ≡ₚ x :: l.
Proof.
  induction l as [|y l IH]; [done|]. simpl. destruct (le x y); [done|].
  rewrite IH. apply Permutation_swap.
Qed.

Lemma stable_sort_perm (l : list A) : stable_sort le l ≡ₚ l.
Proof.
  induction l as [|x l IH]; [done|]. simpl. by rewrite insert_sorted_perm, IH.
Qed.

Lemma length_stable_sort (l : list A) : length (stable_sort le l) = length l.
Proof. apply Permutation_length, stable_sort_perm. Qed.

Hypothesis le_total : forall a b, le a b = false -> le b a = true.
Hypothesis le_trans : forall a b c, le a b = true -> le b c = true -> le a c = true.

Lemma insert_sorted_sorted (x : A) (l : list A) :
  StronglySorted (fun a b => le a b = true) l ->
  StronglySorted (fun a b => le a b = true) (insert_sorted le x l).
Proof using le_total le_trans.
  induction 1 as [|y l Hl IH Hy]; simpl; [repeat constructor|].
  destruct (le x y) eqn:E.
  - constructor; [by constructor|]. constructor; [done|].
    eapply Forall_impl; [apply Hy|]. simpl. intros z Hz. by apply (le_trans x y z).
  - constructor; [done|].
    rewrite (Forall_forall _ (insert_sorted le x l)). intros z Hz.
    rewrite insert_sorted_perm in Hz. apply elem_of_cons in Hz as [->|Hz].
    + by apply le_total.
    + rewrite Forall_forall in Hy. by apply Hy.
Qed.

Lemma stable_sort_strongly_sorted (l : list A) :
  StronglySorted (fun a b => le a b = true) (stable_sort le l).
Proof using le_total le_trans.
  induction l as [|x l IH]; [constructor|]. simpl. by apply insert_sorted_sorted.
Qed.
End SortFacts.

(** ** The gates that the router builds *)

Lemma zip_with_fmap_same {A B C D} (f : B -> C -> D) (g : A -> B) (h : A -> C)
    (l : list A) :
  zip_with f (g <$> l) (h <$> l) = (fun x => f (g x) (h x)) <$> l.
Proof. induction l as [|x l IH]; [done|]. csimpl. by rewrite IH. Qed.

Section GatingFacts.
Context {T : Type} `{FloatOps T}.
Import MoEKANConvBase.

(* the order of topk: a stays before b unless b is larger *)
Definition desc (a b : T * nat) : bool := negb (fgt (fst b) (fst a)).
(* the entries of a row with their positions, largest first *)
Definition sorted_desc (row : list T) : list (T * nat) := stable_sort desc (tag row).

(* the gates of one unit: the softmax of its k largest logits, at their
   positions, and zero elsewhere *)
Definition gate_row (k : nat) (row : list T) : list T :=
  let top := take k (sorted_desc row) in
  scatter_row ((fun _ => f0) <$> row) (snd <$> top) (softmax (fst <$> top)).

Definition noise_stddev_of (raw : list (list T)) (train : bool) (noise_epsilon : T)
  : list (list T) :=
  map2d (fun r => fmul (fadd (softplus r) noise_epsilon) (of_bool train)) raw.

Definition noisy_logits_of (randn : nat -> nat -> T) (clean stddev : list (list T))
  : list (list T) :=
  imap (fun b row => imap (fun e c => fadd c (fmul (randn b e) (at2 stddev b e))) row) clean.

Lemma slice_take {A} (k n : nat) (l : list A) :
  k <= n -> slice_to (Z.of_nat k) (take n l) = take k l.
Proof.
  intros Hk. unfold slice_to. rewrite (proj2 (Z.ltb_ge _ _)) by lia.
  rewrite Nat2Z.id, take_take. f_equal. lia.
Qed.

Lemma matmul_some (nin nout : nat) (x w : list (list T)) :
  Forall (fun row => length row = nin) x -> length w = nin ->
  Forall (fun row => length row = nout) w ->
  exists m, matmul nin nout x w = Some m /\ length m = length x /\
            Forall (fun row => length row = nout) m.
Proof.
  intros Hx Hw Hwr. unfold matmul.
  assert (forall n (l : list (list T)), Forall (fun row => length row = n) l ->
            forallb (fun row => length row =? n) l = true) as Hall.
  { intros n l Hl. apply Is_true_eq_true, forallb_True. eapply Forall_impl; [apply Hl|].
    simpl. intros row Hrow. by apply Is_true_eq_left, Nat.eqb_eq. }
  rewrite !Hall by done. rewrite (proj2 (Nat.eqb_eq _ _) Hw). simpl.
  eexists. split_and!; [done|by rewrite length_fmap|].
  apply Forall_fmap, Forall_forall. intros row _. simpl.
  by rewrite length_fmap, length_seq.
Qed.

Lemma noisy_logits_shape (randn : nat -> nat -> T) (ne : nat) (clean stddev : list (list T)) :
  Forall (fun row => length row = ne) clean ->
  length (noisy_logits_of randn clean stddev) = length clean /\
  Forall (fun row => length row = ne) (noisy_logits_of randn clean stddev).
Proof.
  intros Hc. unfold noisy_logits_of. split; [by rewrite length_imap|].
  apply Forall_lookup_2. intros b row Hrow.
  apply list_lookup_imap_Some in Hrow as (crow & Hcrow & ->).
  rewrite length_imap. apply (Forall_lookup_1 _ _ _ _ Hc Hcrow).
Qed.

(* the gates in terms of the logits *)
Lemma gates_of_logits (kz ez : Z) (logits : list (list T)) :
  (0 <= kz <= ez)%Z ->
  let n := Z.min (kz + 1) ez in
  let top := fmap (topk_row (Z.to_nat n)) logits in
  zip_with (fun z p => scatter_row z (fst p) (snd p))
    (map2d (fun _ => f0) logits)
    (zip (fmap (slice_to kz) (map2d snd top))
         (fmap softmax (fmap (slice_to kz) (map2d fst top))))
  = gate_row (Z.to_nat kz) <$> logits.
Proof.
  intros Hk n top. unfold top, map2d.
  rewrite <- !list_fmap_compose.
  rewrite (zip_with_fmap_same pair), zip_with_fmap_same.
  apply list_fmap_ext. intros _ row _. simpl. unfold gate_row, topk_row.
  fold desc. fold (sorted_desc row).
  rewrite <- (Z2Nat.id kz) at 1 2 by lia.
  rewrite !fmap_take, !slice_take by lia. done.
Qed.
End GatingFacts.

Section SelectionFacts.
Context {T : Type} `{FloatOps T}.
Import MoEKANConvBase.

Lemma sorted_desc_perm (row : list T) : sorted_desc row ≡ₚ tag row.
Proof. apply stable_sort_perm. Qed.

Lemma length_sorted_desc (row : list T) : length (sorted_desc row) = length row.
Proof. unfold sorted_desc. by rewrite length_stable_sort, length_tag. Qed.

Lemma sorted_desc_entry (row : list T) (p : T * nat) :
  p ∈ sorted_desc row -> row !! snd p = Some (fst p).
Proof.
  rewrite sorted_desc_perm. intros Hp. apply list_elem_of_lookup in Hp as [i Hi].
  rewrite lookup_tag in Hi. destruct (row !! i) as [x|] eqn:E; [|done].
  simpl in Hi. injection Hi as <-. done.
Qed.

Lemma sorted_desc_positions (row : list T) : NoDup (snd <$> sorted_desc row).
Proof. rewrite sorted_desc_perm, tag_snd. apply NoDup_seq. Qed.

(* the positions selected for a unit: those of its k largest logits *)
Definition selected (k : nat) (row : list T) : list nat :=
  snd <$> take k (sorted_desc row).

Lemma selected_NoDup (k : nat) (row : list T) : NoDup (selected k row).
Proof.
  unfold selected. rewrite fmap_take.
  eapply sublist_NoDup; [apply sorted_desc_positions|apply sublist_take].
Qed.

Lemma selected_lt (k : nat) (row : list T) (e : nat) :
  e ∈ selected k row -> e < length row.
Proof.
  unfold selected. intros He. apply list_elem_of_fmap in He as (p & -> & Hp).
  apply elem_of_take in Hp as (i & Hp & _). apply list_elem_of_lookup_2 in Hp.
  apply sorted_desc_entry in Hp. by apply lookup_lt_Some in Hp.
Qed.

Lemma length_selected (k : nat) (row : list T) :
  k <= length row -> length (selected k row) = k.
Proof.
  intros Hk. unfold selected.
  rewrite length_fmap, length_take, length_sorted_desc. lia.
Qed.

(** scatter *)

Lemma scatter_row_cons (z : list T) (i : nat) (idx : list nat) (v : T) (vals : list T) :
  scatter_row z (i :: idx) (v :: vals) = scatter_row (<[i := v]> z) idx vals.
Proof. done. Qed.

Lemma length_scatter_row (z : list T) (idx : list nat) (vals : list T) :
  length (scatter_row z idx vals) = length z.
Proof.
  revert z vals. induction idx as [|i idx IH]; intros z vals; [done|].
  destruct vals as [|v vals]; [done|]. by rewrite scatter_row_cons, IH, length_insert.
Qed.

Lemma scatter_row_out (z : list T) (idx : list nat) (vals : list T) (e : nat) :
  e ∉ idx -> scatter_row z idx vals !! e = z !! e.
Proof.
  revert z vals. induction idx as [|i idx IH]; intros z vals He; [done|].
  destruct vals as [|v vals]; [done|]. apply not_elem_of_cons in He as [Hne He].
  rewrite scatter_row_cons, IH by done. by apply list_lookup_insert_ne.
Qed.

Lemma scatter_row_in (z : list T) (idx : list nat) (vals : list T) (p e : nat) (v : T) :
  NoDup idx -> idx !! p = Some e -> vals !! p = Some v -> e < length z ->
  scatter_row z idx vals !! e = Some v.
Proof.
  revert z vals p. induction idx as [|i idx IH]; intros z vals p Hnd Hp Hv He; [done|].
  destruct vals as [|v' vals]; [done|]. apply NoDup_cons in Hnd as [Hi Hnd].
  rewrite scatter_row_cons. destruct p as [|p]; simpl in *.
  - injection Hp as ->. injection Hv as ->.
    rewrite scatter_row_out by done. by apply list_lookup_insert_eq.
  - apply (IH _ _ p); try done. by rewrite length_insert.
Qed.
End SelectionFacts.

Lemma filter_length_positions {A} (P : A -> Prop) `{forall x, Decision (P x)} (d : A)
    (l : list A) :
  length (filter P l) = length (filter (fun i => P (nth i l d)) (seq 0 (length l))).
Proof.
  induction l as [|x l IH] using rev_ind; [done|].
  rewrite filter_app, length_app, IH, length_app. simpl.
  rewrite Nat.add_1_r, seq_snoc, filter_app, length_app. f_equal.
  - f_equal. apply filter_ext_elem. intros b Hb. apply elem_of_seq in Hb.
    rewrite app_nth1 by lia. done.
  - rewrite !filter_cons, !filter_nil, nth_middle. by destruct (decide (P x)).
Qed.

(** ** The gates over the reals *)

Section GateRowReal.
Local Open Scope R_scope.
Import MoEKANConvBase.

Lemma length_softmax (l : list R) : length (softmax l) = length l.
Proof. unfold softmax. by rewrite !length_fmap. Qed.

Lemma fsum_exp_pos (l : list R) : l <> [] -> 0 < fsum (exp <$> l).
Proof.
  intros Hl. apply fsum_pos.
  - intros Hnil. by apply fmap_nil_inv in Hnil.
  - apply Forall_fmap, Forall_forall. intros x _. apply exp_pos.
Qed.

Lemma softmax_pos (l : list R) : Forall (fun v => 0 < v) (softmax l).
Proof.
  destruct l as [|x l]; [constructor|]. unfold softmax.
  apply Forall_fmap, Forall_fmap, Forall_forall. intros y _. simpl.
  apply Rdiv_lt_0_compat; [apply exp_pos|]. by apply (fsum_exp_pos (x :: l)).
Qed.

Lemma fsum_div (l : list R) (s : R) : fsum ((fun e => e / s) <$> l) = fsum l / s.
Proof.
  induction l as [|x l IH].
  - simpl. rewrite fsum_nil. lra.
  - rewrite fmap_cons, !fsum_cons, IH. lra.
Qed.

Lemma softmax_sum (l : list R) : l <> [] -> fsum (softmax l) = 1.
Proof.
  intros Hl. unfold softmax. simpl. rewrite fsum_div.
  pose proof (fsum_exp_pos l Hl). apply Rdiv_diag. lra.
Qed.

Lemma fsum_insert (z : list R) (i : nat) (v : R) :
  (i < length z)%nat -> fsum (<[i := v]> z) = fsum z - nth i z 0 + v.
Proof.
  intros Hi. destruct (nth_lookup_or_length z i 0) as [Hz|]; [|lia].
  assert (fsum z = fsum (take i z) + (nth i z 0 + fsum (drop (S i) z))) as Hsum.
  { rewrite <- (take_drop_middle z i _ Hz) at 1. by rewrite fsum_app, fsum_cons. }
  rewrite insert_take_drop by done.
  rewrite fsum_app, fsum_cons. lra.
Qed.

Lemma fsum_scatter (z : list R) (idx : list nat) (vals : list R) :
  NoDup idx -> Forall (fun i => (i < length z)%nat) idx -> length idx = length vals ->
  fsum (scatter_row z idx vals)
  = fsum z + fsum vals - fsum ((fun j => nth j z 0) <$> idx).
Proof.
  revert z vals. induction idx as [|i idx IH]; intros z vals Hnd Hlt Hlen.
  { destruct vals; [|done]. simpl. rewrite !fsum_nil. unfold scatter_row. simpl. lra. }
  destruct vals as [|v vals]; [done|].
  apply NoDup_cons in Hnd as [Hi Hnd]. apply Forall_cons in Hlt as [Hiz Hlt].
  rewrite scatter_row_cons, IH; [|done|by rewrite length_insert|by injection Hlen].
  rewrite fsum_insert, fmap_cons, !fsum_cons by done.
  assert ((fun j => nth j (<[i:=v]> z) 0) <$> idx = (fun j => nth j z 0) <$> idx) as ->.
  { apply list_fmap_ext. intros p j Hj. apply list_elem_of_lookup_2 in Hj.
    rewrite !nth_lookup, list_lookup_insert_ne; [done|]. by intros ->. }
  lra.
Qed.

Lemma fsum_zeros {A} (l : list A) : fsum ((fun _ => @f0 R _) <$> l) = 0.
Proof. rewrite Rf0, fsum_const. lra. Qed.

Section Row.
Context (k : nat) (row : list R).
Hypothesis Hk : (k <= length row)%nat.

Lemma gate_row_length : length (gate_row k row) = length row.
Proof. unfold gate_row. by rewrite length_scatter_row, length_fmap. Qed.

Lemma gate_row_other (e : nat) : e ∉ selected k row -> nth e (gate_row k row) 0 = 0.
Proof.
  intros He. unfold gate_row. rewrite nth_lookup.
  rewrite scatter_row_out by done. rewrite list_lookup_fmap.
  destruct (row !! e); [apply Rf0|done].
Qed.

Lemma gate_row_selected (e : nat) : e ∈ selected k row -> 0 < nth e (gate_row k row) 0.
Proof using Hk.
  intros He. pose proof (selected_lt k row e He) as Hlt.
  apply list_elem_of_lookup in He as [p Hp].
  assert (p < length (softmax (fst <$> take k (sorted_desc row))))%nat as Hpv.
  { apply lookup_lt_Some in Hp. unfold selected in Hp.
    rewrite length_fmap in Hp. by rewrite length_softmax, length_fmap. }
  destruct (nth_lookup_or_length (softmax (fst <$> take k (sorted_desc row))) p 0)
    as [Hv|]; [|lia].
  pose proof (scatter_row_in ((fun _ => f0) <$> row) _ _ p e _
                (selected_NoDup k row) Hp Hv) as Hs.
  rewrite length_fmap in Hs. specialize (Hs Hlt).
  unfold gate_row. fold (selected k row). rewrite (nth_lookup_Some _ _ _ _ Hs).
  apply (Forall_lookup_1 _ _ _ _ (softmax_pos _) Hv).
Qed.

Lemma gate_row_nonneg : Forall (fun v => 0 <= v) (gate_row k row).
Proof using Hk.
  apply Forall_lookup_2. intros e v Hv.
  rewrite <- (nth_lookup_Some _ _ 0 _ Hv).
  destruct (decide (e ∈ selected k row)) as [He|He].
  - apply Rlt_le. by apply gate_row_selected.
  - rewrite gate_row_other by done. lra.
Qed.

Lemma gate_row_count : length (filter (fun v => fpos v = true) (gate_row k row)) = k.
Proof using Hk.
  rewrite (filter_length_positions _ 0), gate_row_length.
  transitivity (length (selected k row)); [|by apply length_selected].
  apply Permutation_length.
  apply NoDup_Permutation; [apply NoDup_filter, NoDup_seq|apply selected_NoDup|].
  intros e. rewrite list_elem_of_filter, elem_of_seq. split.
  - intros [Hpos _]. destruct (decide (e ∈ selected k row)) as [He|He]; [done|].
    rewrite gate_row_other in Hpos by done. apply Rpos_true in Hpos. lra.
  - intros He. split; [by apply Rpos_true, gate_row_selected|].
    pose proof (selected_lt k row e He). lia.
Qed.

Lemma gate_row_sum : (1 <= k)%nat -> fsum (gate_row k row) = 1.
Proof using Hk.
  intros Hk1. unfold gate_row.
  rewrite fsum_scatter.
  - rewrite fsum_zeros, softmax_sum.
    + assert ((fun j => nth j ((fun _ => f0) <$> row) 0) <$> (take k (sorted_desc row)).*2
              = (fun _ => 0) <$> (take k (sorted_desc row)).*2) as ->.
      { apply list_fmap_ext. intros _ j _. rewrite nth_lookup, list_lookup_fmap.
        destruct (row !! j); [apply Rf0|done]. }
      rewrite fsum_const. lra.
    + intros Hnil. apply (f_equal length) in Hnil.
      rewrite length_fmap, length_take, length_sorted_desc in Hnil. simpl in Hnil. lia.
  - apply selected_NoDup.
  - apply Forall_forall. intros e He. rewrite length_fmap. by apply (selected_lt k).
  - by rewrite length_softmax, !length_fmap.
Qed.
End Row.

Lemma fsum_filter_nez (l : list R) : fsum (filter (fun v => fnez v = true) l) = fsum l.
Proof.
  induction l as [|x l IH]; [done|]. rewrite filter_cons, fsum_cons.
  destruct (decide (fnez x = true)) as [Hx|Hx].
  - by rewrite fsum_cons, IH.
  - apply not_true_is_false, Rnez_false in Hx. rewrite IH. lra.
Qed.

Lemma filter_nez_pos (l : list R) :
  Forall (fun v => 0 <= v) l ->
  filter (fun v => fnez v = true) l = filter (fun v => fpos v = true) l.
Proof.
  intros Hl. apply filter_ext_elem. intros v Hv.
  rewrite Forall_forall in Hl. by rewrite (R_nonneg_tests v (Hl v Hv)).
Qed.
End GateRowReal.

(** ** The load *)

Lemma mapM_fmap_some {A B C} (f : B -> option C) (g : A -> B) (h : A -> C) (l : list A) :
  (forall x, x ∈ l -> f (g x) = Some (h x)) -> mapM f (g <$> l) = Some (h <$> l).
Proof.
  intros Hf. apply mapM_Some. apply Forall2_fmap. apply Forall_Forall2_diag.
  apply Forall_forall. intros x Hx. by apply Hf.
Qed.

Section LoadFacts.
Context {T : Type} `{FloatOps T}.
Import MoEKANConvBase.

(* the values of a row, largest first *)
Definition values_desc (row : list T) : list T := fst <$> sorted_desc row.

(* the probability that torch.where picks, for the thresholds of one unit *)
Definition prob_entry (cdf : T -> T) (t_in t_out noisy stddev clean : T) : T :=
  if fgt noisy t_in then cdf (fdiv (fsub clean t_in) stddev)
  else cdf (fdiv (fsub clean t_out) stddev).

Lemma nth_take_lt {A} (l : list A) (n i : nat) (d : A) :
  i < n -> nth i (take n l) d = nth i l d.
Proof. intros Hi. by rewrite !nth_lookup, lookup_take_lt. Qed.

Lemma prob_in_top_k_value (self : t) (cdf : T -> T) (k' : nat)
    (clean noisy stddev logits : list (list T)) :
  k self = Z.of_nat k' -> 1 <= k' ->
  Forall (fun row => k' + 1 <= length row) logits ->
  length clean = length logits ->
  prob_in_top_k self cdf clean noisy stddev
    ((fun row => fst <$> take (k' + 1) (sorted_desc row)) <$> logits)
  = Some (imap (fun b row =>
            let s := values_desc (nth b logits []) in
            imap (fun e c => prob_entry cdf (nth k' s f0) (nth (k' - 1) s f0)
                               (at2 noisy b e) (at2 stddev b e) c) row)
          clean).
Proof.
  intros Hk Hk1 Hlen Hcl. unfold prob_in_top_k.
  set (top := (fun row => fst <$> take (k' + 1) (sorted_desc row)) <$> logits).
  assert (Forall (fun l => length l = k' + 1) top) as Htop.
  { apply Forall_fmap. eapply Forall_impl; [apply Hlen|]. simpl. intros row Hrow.
    rewrite length_fmap, length_take, length_sorted_desc. lia. }
  assert (forall b j, b < length logits -> j < k' + 1 ->
            mjoin top !! (b * (k' + 1) + j) = Some (nth j (values_desc (nth b logits [])) f0))
    as Hflat.
  { intros b j Hb Hj. apply (join_lookup_Some_same_length (k' + 1)); [done|].
    destruct (nth_lookup_or_length logits b []) as [Hrow|]; [|lia].
    exists b, (fst <$> take (k' + 1) (sorted_desc (nth b logits []))), j. split_and!.
    - unfold top. by rewrite list_lookup_fmap, Hrow.
    - pose proof (Forall_lookup_1 _ _ _ _ Hlen Hrow) as Hl. simpl in Hl.
      rewrite fmap_take. fold (values_desc (nth b logits [])).
      rewrite lookup_take_lt by done.
      destruct (nth_lookup_or_length (values_desc (nth b logits [])) j f0) as [Hv|Hv];
        [done|]. unfold values_desc in Hv. rewrite length_fmap, length_sorted_desc in Hv. lia.
    - done. }
  assert (forall b, b ∈ seq 0 (length clean) ->
            Z.of_nat (length (nth 0 top [])) = Z.of_nat (k' + 1)) as Hm.
  { intros b Hb. apply elem_of_seq in Hb. f_equal.
    destruct (nth_lookup_or_length top 0 []) as [Ht|Ht].
    - apply (Forall_lookup_1 _ _ _ _ Htop Ht).
    - unfold top in Ht. rewrite length_fmap in Ht. lia. }
  rewrite (mapM_fmap_some _ _ (fun b => nth k' (values_desc (nth b logits [])) f0)).
  2:{ intros b Hb. rewrite (Hm b Hb). apply elem_of_seq in Hb. unfold gather1.
      rewrite Hk. rewrite (proj2 (Z.ltb_ge _ _)) by lia.
      replace (Z.to_nat (Z.of_nat b * Z.of_nat (k' + 1) + Z.of_nat k'))
        with (b * (k' + 1) + k') by lia.
      apply Hflat; lia. }
  simpl. rewrite <- list_fmap_compose.
  rewrite (mapM_fmap_some _ _ (fun b => nth (k' - 1) (values_desc (nth b logits [])) f0)).
  2:{ intros b Hb. simpl. rewrite (Hm b Hb). apply elem_of_seq in Hb. unfold gather1.
      rewrite Hk. rewrite (proj2 (Z.ltb_ge _ _)) by lia.
      replace (Z.to_nat (Z.of_nat b * Z.of_nat (k' + 1) + Z.of_nat k' - 1))
        with (b * (k' + 1) + (k' - 1)) by lia.
      apply Hflat; lia. }
  simpl. f_equal. apply imap_ext. intros b row Hrow. simpl.
  apply lookup_lt_Some in Hrow.
  rewrite !(nth_lookup_Some _ b f0 _
              (ltac:(by rewrite list_lookup_fmap, lookup_seq_lt) :
                 ((fun b => nth _ (values_desc (nth b logits [])) f0) <$> seq 0 (length clean))
                 !! b = Some _)).
  done.
Qed.
End LoadFacts.

(** ** What the router returns *)

Section GatingResult.
Context {T : Type} `{FloatOps T}.
Import MoEKANConvBase.

(* the shapes that the router needs: x is [B, input_size], both weight
   tensors are [input_size, num_experts] *)
Definition well_shaped (self : @t T) (x : list (list T)) : Prop :=
  let nin := Z.to_nat (input_size self) in
  let ne := Z.to_nat (num_experts self) in
  Forall (fun row => length row = nin) x /\
  length (w_gate self) = nin /\ Forall (fun row => length row = ne) (w_gate self) /\
  length (w_noise self) = nin /\ Forall (fun row => length row = ne) (w_noise self).

(* the expected load of the experts under resampled noise *)
Definition soft_load (cdf : T -> T) (ne k' : nat) (clean noisy stddev : list (list T))
  : list T :=
  sum0 ne (imap (fun b row =>
                   let s := values_desc (nth b noisy []) in
                   imap (fun e c => prob_entry cdf (nth k' s f0) (nth (k' - 1) s f0)
                                      (at2 noisy b e) (at2 stddev b e) c) row)
                clean).

Lemma gating_result (self : @t T) (cdf : T -> T) (randn : nat -> nat -> T)
    (x : list (list T)) (train : bool) (noise_epsilon : T) :
  (1 <= k self <= num_experts self)%Z ->
  well_shaped self x ->
  let nin := Z.to_nat (input_size self) in
  let ne := Z.to_nat (num_experts self) in
  let k' := Z.to_nat (k self) in
  exists clean raw,
    matmul nin ne x (w_gate self) = Some clean /\
    (if noisy_gating self then matmul nin ne x (w_noise self) else Some []) = Some raw /\
    let stddev := noise_stddev_of raw train noise_epsilon in
    let noisy := noisy_logits_of randn clean stddev in
    let logits := if noisy_gating self then noisy else clean in
    length logits = length x /\
    Forall (fun row => length row = ne) logits /\
    noisy_top_k_gating self cdf randn x train noise_epsilon
    = Some (gate_row k' <$> logits,
            if noisy_gating self && (k self <? num_experts self)%Z && train
            then soft_load cdf ne k' clean noisy stddev
            else gates_to_load ne (gate_row k' <$> logits)).
Proof.
  intros Hk (Hx & Hwg & Hwgr & Hwn & Hwnr) nin ne k'.
  destruct (matmul_some nin ne x (w_gate self) Hx Hwg Hwgr) as (clean & Hclean & Hcl & Hcr).
  assert (exists raw, (if noisy_gating self then matmul nin ne x (w_noise self) else Some [])
                      = Some raw) as [raw Hraw].
  { destruct (noisy_gating self); [|by eexists].
    destruct (matmul_some nin ne x (w_noise self) Hx Hwn Hwnr) as (raw & Hraw & _).
    by exists raw. }
  exists clean, raw. split; [done|]. split; [done|]. intros stddev noisy logits.
  destruct (noisy_logits_shape randn ne clean stddev Hcr) as [Hnl Hnr].
  assert (length logits = length x /\ Forall (fun row => length row = ne) logits)
    as [Hll Hlr].
  { unfold logits. destruct (noisy_gating self); [|done]. unfold noisy. split; [congruence|done]. }
  split; [done|]. split; [done|].
  unfold noisy_top_k_gating. fold nin ne. rewrite Hclean, Hraw. cbn [mbind option_bind].
  fold (noise_stddev_of raw train noise_epsilon). fold stddev.
  fold (noisy_logits_of randn clean stddev). fold noisy. fold logits.
  assert ((Z.min (k self + 1) (num_experts self) <? 0)%Z
          || (Z.of_nat ne <? Z.min (k self + 1) (num_experts self))%Z = false) as ->.
  { apply orb_false_intro; [apply Z.ltb_ge|apply Z.ltb_ge]; lia. }
  rewrite (gates_of_logits (k self) (num_experts self) logits) by lia. fold k'.
  destruct (noisy_gating self && (k self <? num_experts self)%Z && train) eqn:Ecase;
    [|done].
  apply andb_prop in Ecase as [Ecase _]. apply andb_prop in Ecase as [Eng Ekn].
  apply Z.ltb_lt in Ekn.
  assert (logits = noisy) as Hln by (unfold logits; by rewrite Eng).
  assert (map2d fst (topk_row (Z.to_nat (Z.min (k self + 1) (num_experts self))) <$> logits)
          = (fun row => fst <$> take (k' + 1) (sorted_desc row)) <$> noisy) as ->.
  { rewrite Hln. unfold map2d. rewrite <- list_fmap_compose.
    apply list_fmap_ext. intros _ row _. simpl. unfold topk_row. fold desc.
    fold (sorted_desc row). do 2 f_equal. unfold k'. lia. }
  rewrite (prob_in_top_k_value self cdf k');
    [done|unfold k'; lia|unfold k'; lia| |symmetry; apply Hnl].
  eapply Forall_impl; [apply Hnr|]. simpl. intros row Hrow. unfold k', ne in *. lia.
Qed.
End GatingResult.

Section OrderFacts.
Context {T : Type} `{FloatOps T}.

Lemma values_desc_perm (row : list T) : values_desc row ≡ₚ row.
Proof. unfold values_desc. by rewrite sorted_desc_perm, tag_fst. Qed.

Lemma selected_or_rest (k : nat) (row : list T) (e : nat) :
  e < length row -> e ∉ selected k row ->
  exists p, p ∈ drop k (sorted_desc row) /\ snd p = e.
Proof.
  intros He Hns.
  assert (e ∈ snd <$> sorted_desc row) as Hin.
  { rewrite sorted_desc_perm, tag_snd. apply elem_of_seq. lia. }
  apply list_elem_of_fmap in Hin as (p & -> & Hp).
  rewrite <- (take_drop k (sorted_desc row)) in Hp.
  apply elem_of_app in Hp as [Hp|Hp]; [|by exists p].
  exfalso. apply Hns. unfold selected. by apply list_elem_of_fmap_2.
Qed.
End OrderFacts.

Section OrderReal.
Local Open Scope R_scope.

Lemma desc_true (a b : R * nat) : desc a b = true <-> fst b <= fst a.
Proof.
  unfold desc. rewrite negb_true_iff. apply Rgt_false.
Qed.

Lemma sorted_desc_sorted (row : list R) :
  StronglySorted (fun a b => desc a b = true) (sorted_desc row).
Proof.
  apply stable_sort_strongly_sorted.
  - intros a b Hab. apply desc_true. apply not_true_iff_false in Hab.
    rewrite desc_true in Hab. lra.
  - intros a b c. rewrite !desc_true. lra.
Qed.

Lemma values_desc_sorted (row : list R) : StronglySorted Rge (values_desc row).
Proof.
  unfold values_desc. induction (sorted_desc_sorted row) as [|p l _ IH Hp]; [constructor|].
  csimpl. constructor; [done|]. apply Forall_fmap.
  eapply Forall_impl; [apply Hp|]. simpl. intros q Hq. apply desc_true in Hq. lra.
Qed.

(* the selected positions hold the largest logits *)
Lemma selected_largest (k : nat) (row : list R) (e e' : nat) :
  e ∈ selected k row -> e' ∉ selected k row -> (e' < length row)%nat ->
  nth e' row 0 <= nth e row 0.
Proof.
  intros He Hne Hlt. unfold selected in He.
  apply list_elem_of_fmap in He as (p & -> & Hp).
  destruct (selected_or_rest k row e' Hlt Hne) as (p' & Hp' & <-).
  pose proof (sorted_desc_sorted row) as Hs.
  rewrite <- (take_drop k (sorted_desc row)) in Hs.
  pose proof (StronglySorted_app_1_elem_of _ _ _ _ _ Hs Hp Hp') as Hpp.
  apply desc_true in Hpp.
  assert (p ∈ sorted_desc row) as Hpin.
  { rewrite <- (take_drop k (sorted_desc row)). apply elem_of_app. by left. }
  assert (p' ∈ sorted_desc row) as Hpin'.
  { rewrite <- (take_drop k (sorted_desc row)). apply elem_of_app. by right. }
  apply sorted_desc_entry in Hpin, Hpin'.
  by rewrite (nth_lookup_Some _ _ _ _ Hpin), (nth_lookup_Some _ _ _ _ Hpin').
Qed.
End OrderReal.

(** ** The claims about the router *)

Section RouterLogits.
Context {T : Type} `{FloatOps T}.
Import MoEKANConvBase.

(* the logits that the router ranks: the clean ones, or the noisy ones when
   noisy gating is on *)
Definition router_logits (self : @t T) (randn : nat -> nat -> T) (x : list (list T))
    (train : bool) (noise_epsilon : T) : option (list (list T)) :=
  let nin := Z.to_nat (input_size self) in
  let ne := Z.to_nat (num_experts self) in
  clean ← matmul nin ne x (w_gate self);
  raw ← (if noisy_gating self then matmul nin ne x (w_noise self) else Some []);
  Some (if noisy_gating self
        then noisy_logits_of randn clean (noise_stddev_of raw train noise_epsilon)
        else clean).
End RouterLogits.

Section RouterClaims.
Local Open Scope R_scope.
Import MoEKANConvBase.

Context (self : @t R) (cdf : R -> R) (randn : nat -> nat -> R) (x : list (list R))
        (train : bool) (noise_epsilon : R).
Hypothesis Hk : (1 <= k self <= num_experts self)%Z.
Hypothesis Hshape : well_shaped self x.

Lemma router_gates :
  exists logits load,
    router_logits self randn x train noise_epsilon = Some logits /\
    length logits = length x /\
    Forall (fun row => length row = Z.to_nat (num_experts self)) logits /\
    length load = Z.to_nat (num_experts self) /\
    noisy_top_k_gating self cdf randn x train noise_epsilon
    = Some (gate_row (Z.to_nat (k self)) <$> logits, load).
Proof using Hk Hshape.
  destruct (gating_result self cdf randn x train noise_epsilon Hk Hshape)
    as (clean & raw & Hclean & Hraw & Hlen & Hrows & Hg).
  eexists _, _. split_and!; [|apply Hlen|apply Hrows| |apply Hg].
  - unfold router_logits. rewrite Hclean, Hraw. done.
  - destruct (noisy_gating self && (k self <? num_experts self)%Z && train).
    + unfold soft_load, sum0. by rewrite length_fmap, length_seq.
    + unfold gates_to_load, SparseDispatcher.count_pos.
      by rewrite !length_fmap, length_seq.
Qed.
End RouterClaims.

Section RouterTheorems.
Local Open Scope R_scope.
Import MoEKANConvBase.

(** C2: for 1 <= k <= E and well-shaped inputs the router returns gates, one
    row per unit; in every row at most k entries are nonzero, the nonzero
    entries sum to 1 (so to 1 within 1e-6), and every entry outside the
    positions of the k largest logits is exactly zero. *)
Theorem gates_rows_sparse_convex (self : @t R) (cdf : R -> R) (randn : nat -> nat -> R)
    (x : list (list R)) (train : bool) (noise_epsilon : R) :
  (1 <= k self <= num_experts self)%Z ->
  well_shaped self x ->
  exists logits gates load,
    router_logits self randn x train noise_epsilon = Some logits /\
    noisy_top_k_gating self cdf randn x train noise_epsilon = Some (gates, load) /\
    length gates = length x /\
    Forall2 (fun lrow grow =>
               let nonzero := filter (fun v => fnez v = true) grow in
               let sel := selected (Z.to_nat (k self)) lrow in
               (length nonzero <= Z.to_nat (k self))%nat /\
               fsum nonzero = 1 /\
               Rabs (fsum nonzero - 1) <= 1 / 1000000 /\
               (forall e, e ∉ sel -> nth e grow 0 = 0) /\
               (forall e e', e ∈ sel -> e' ∉ sel -> (e' < length lrow)%nat ->
                             nth e' lrow 0 <= nth e lrow 0))
            logits gates.
Proof.
  intros Hk Hshape.
  destruct (router_gates self cdf randn x train noise_epsilon Hk Hshape)
    as (logits & load & Hlog & Hlen & Hrows & Hll & Hg).
  exists logits, (gate_row (Z.to_nat (k self)) <$> logits), load.
  split_and!; [done|done|by rewrite length_fmap|].
  apply Forall2_fmap_r, Forall_Forall2_diag.
  eapply Forall_impl; [apply Hrows|]. intros row Hrow. unfold compose. cbv beta zeta in *.
  assert (Z.to_nat (k self) <= length row)%nat as Hkr by lia.
  rewrite fsum_filter_nez, gate_row_sum by (done || lia).
  rewrite (filter_nez_pos _ (gate_row_nonneg _ row Hkr)).
  rewrite gate_row_count by done.
  split_and!; [done|done| | |].
  - replace (1 - 1) with 0 by lra. rewrite Rabs_R0. lra.
  - intros e. apply gate_row_other.
  - intros e e'. apply selected_largest.
Qed.

(* a small layer: one input feature, two experts, top-1 routing *)
Definition layer_1_2 (noisy : bool) : @t R :=
  {| noisy_gating := noisy; num_experts := 2; output_size := 1; input_size := 1;
     k := 1; experts := [fun inp => (fun _ => [0]) <$> inp; fun inp => (fun _ => [0]) <$> inp];
     w_gate := [[0; 0]]; w_noise := [[0; 0]] |}.

Lemma layer_1_2_shaped (noisy : bool) : well_shaped (layer_1_2 noisy) [[1]].
Proof. unfold well_shaped. simpl. split_and!; repeat constructor. Qed.

Lemma gates_rows_sparse_convex_witness :
  exists logits gates load,
    router_logits (layer_1_2 false) (fun _ _ => 0) [[1]] true (1 / 100) = Some logits /\
    noisy_top_k_gating (layer_1_2 false) (fun v => v) (fun _ _ => 0) [[1]] true (1 / 100)
    = Some (gates, load) /\
    length gates = 1%nat /\
    Forall2 (fun lrow grow =>
               let nonzero := filter (fun v => fnez v = true) grow in
               let sel := selected 1 lrow in
               (length nonzero <= 1)%nat /\
               fsum nonzero = 1 /\
               Rabs (fsum nonzero - 1) <= 1 / 1000000 /\
               (forall e, e ∉ sel -> nth e grow 0 = 0) /\
               (forall e e', e ∈ sel -> e' ∉ sel -> (e' < length lrow)%nat ->
                             nth e' lrow 0 <= nth e lrow 0))
            logits gates.
Proof.
  apply (gates_rows_sparse_convex (layer_1_2 false) (fun v => v) (fun _ _ => 0) [[1]] true
           (1 / 100)).
  - simpl. lia.
  - apply layer_1_2_shaped.
Defined.



Lemma fmap_imap_seq {A B C} (g : B -> C) (F : nat -> A -> B) (d : A) (l : list A) :
  g <$> imap F l = (fun b => g (F b (nth b l d))) <$> seq 0 (length l).
Proof.
  apply list_eq. intros i. rewrite !list_lookup_fmap, list_lookup_imap.
  destruct (nth_lookup_or_length l i d) as [Hi|Hi].
  - rewrite Hi, lookup_seq_lt by (by apply lookup_lt_Some in Hi). done.
  - rewrite (proj2 (lookup_ge_None _ _) Hi), lookup_seq_ge by done. done.
Qed.

Lemma nth_imap {A B} (F : nat -> A -> B) (l : list A) (i : nat) (d : A) (d' : B) :
  (i < length l)%nat -> nth i (imap F l) d' = F i (nth i l d).
Proof.
  intros Hi. apply nth_lookup_Some. rewrite list_lookup_imap.
  destruct (nth_lookup_or_length l i d) as [Hl|]; [|lia]. by rewrite Hl.
Qed.

Lemma nth_sum0 (ne e : nat) (m : list (list R)) :
  (e < ne)%nat -> nth e (sum0 ne m) 0 = fsum ((fun row => nth e row f0) <$> m).
Proof.
  intros He. unfold sum0. apply nth_lookup_Some.
  by rewrite list_lookup_fmap, lookup_seq_lt.
Qed.

(* the j-th largest entry of a row, j counted from 1 *)
Definition kth_largest (j : nat) (row : list R) : R := nth (j - 1) (values_desc row) 0.

(* the expected number of units for which expert e is among the top k when
   the noise is drawn again *)
Definition expected_load (cdf : R -> R) (k' : nat) (clean noisy stddev : list (list R))
    (e : nat) : R :=
  fsum ((fun b =>
           let thr_in := kth_largest (k' + 1) (nth b noisy []) in
           let thr_out := kth_largest k' (nth b noisy []) in
           if Rlt_dec thr_in (at2 noisy b e)
           then cdf ((at2 clean b e - thr_in) / at2 stddev b e)
           else cdf ((at2 clean b e - thr_out) / at2 stddev b e))
          <$> seq 0 (length clean)).

(* the number of units with a nonzero gate for expert e *)
Definition counted_load (gates : list (list R)) (e : nat) : R :=
  INR (length (units_nz gates e)).

Lemma of_nat_INR (n : nat) : @of_nat R _ n = INR n.
Proof. unfold of_nat. simpl. rewrite INR_IZR_INZ. lra. Qed.

(** C4: the load that the router returns.  With noisy gating, train true
    and k < E, load[e] is the sum over the units of the normal-CDF
    probability of (clean - threshold) / stddev, where the threshold is the
    (k+1)-th largest noisy score of the unit when the expert's noisy score is
    above it (the expert is inside the top k) and the k-th largest otherwise;
    in every other case load[e] is the number of units with a nonzero gate
    for e. *)
Theorem load_expected_or_counted (self : @t R) (cdf : R -> R) (randn : nat -> nat -> R)
    (x : list (list R)) (train : bool) (noise_epsilon : R) :
  (1 <= k self <= num_experts self)%Z ->
  well_shaped self x ->
  let nin := Z.to_nat (input_size self) in
  let ne := Z.to_nat (num_experts self) in
  let k' := Z.to_nat (k self) in
  (forall row : list R, values_desc row ≡ₚ row /\ StronglySorted Rge (values_desc row)) /\
  exists clean raw gates load,
    matmul nin ne x (w_gate self) = Some clean /\
    (if noisy_gating self then matmul nin ne x (w_noise self) else Some []) = Some raw /\
    noisy_top_k_gating self cdf randn x train noise_epsilon = Some (gates, load) /\
    length load = ne /\
    let stddev := noise_stddev_of raw train noise_epsilon in
    let noisy := noisy_logits_of randn clean stddev in
    forall e, (e < ne)%nat ->
      nth e load 0
      = if noisy_gating self && (k self <? num_experts self)%Z && train
        then expected_load cdf k' clean noisy stddev e
        else counted_load gates e.
Proof.
  intros Hk Hshape nin ne k'. split.
  { intros row. split; [apply values_desc_perm|apply values_desc_sorted]. }
  destruct (gating_result self cdf randn x train noise_epsilon Hk Hshape)
    as (clean & raw & Hclean & Hraw & Hlen & Hrows & Hg).
  fold nin ne k' in Hclean, Hraw, Hlen, Hrows, Hg.
  pose proof Hshape as (Hx & Hwg & Hwgr & _).
  destruct (matmul_some nin ne x (w_gate self) Hx Hwg Hwgr) as (clean' & Hclean' & Hcl & Hcr).
  rewrite Hclean in Hclean'. injection Hclean' as <-.
  eexists clean, raw, _, _.
  split; [exact Hclean|]. split; [exact Hraw|]. split; [exact Hg|]. split.
  - destruct (noisy_gating self && (k self <? num_experts self)%Z && train).
    + unfold soft_load, sum0. by rewrite length_fmap, length_seq.
    + unfold gates_to_load, SparseDispatcher.count_pos.
      by rewrite !length_fmap, length_seq.
  - intros stddev noisy e He.
    destruct (noisy_gating self && (k self <? num_experts self)%Z && train) eqn:Ecase.
    + unfold soft_load. rewrite nth_sum0 by done. unfold expected_load.
      rewrite (fmap_imap_seq _ _ []). apply (f_equal fsum), fmap_ext_seq.
      intros b Hb. cbv beta zeta.
      assert (length (nth b clean []) = ne) as Hrow.
      { destruct (nth_lookup_or_length clean b []) as [Hr|]; [|lia].
        apply (Forall_lookup_1 _ _ _ _ Hcr Hr). }
      rewrite (nth_imap _ _ _ f0) by lia. unfold prob_entry, kth_largest.
      fold stddev noisy. replace (k' + 1 - 1)%nat with k' by lia.
      unfold at2. rewrite !Rf0. simpl.
      unfold Rgtb. by destruct (Rlt_dec _ _).
    + unfold gates_to_load, counted_load, SparseDispatcher.count_pos.
      rewrite (nth_lookup_Some _ _ _
                 (of_nat (length (filter (fun row : list R => fpos (nth e row f0) = true)
                                    (gate_row k' <$>
                                     (if noisy_gating self then noisy else clean))))))
        by (by rewrite !list_lookup_fmap, lookup_seq_lt).
      rewrite of_nat_INR, count_rows. f_equal.
      change (length (units_of (gate_row k' <$> (if noisy_gating self then noisy else clean)) e)
              = length (units_nz (gate_row k' <$> (if noisy_gating self then noisy else clean)) e)).
      rewrite (units_nz_of ne); [done| | |done].
      * apply Forall_fmap. eapply Forall_impl; [apply Hrows|]. intros row Hrow.
        simpl in *. rewrite gate_row_length. done.
      * apply R_nonneg_gates, Forall_fmap. eapply Forall_impl; [apply Hrows|].
        intros row Hrow. simpl in *. apply gate_row_nonneg. unfold k', ne in *. lia.
Qed.

Lemma load_expected_or_counted_witness :
  exists clean raw gates load,
    matmul 1 2 [[1]] (w_gate (layer_1_2 true)) = Some clean /\
    matmul 1 2 [[1]] (w_noise (layer_1_2 true)) = Some raw /\
    noisy_top_k_gating (layer_1_2 true) (fun v => v) (fun _ _ => 1) [[1]] true (1 / 100)
    = Some (gates, load) /\
    length load = 2%nat /\
    let stddev := noise_stddev_of raw true (1 / 100) in
    let noisy := noisy_logits_of (fun _ _ => 1) clean stddev in
    forall e, (e < 2)%nat ->
      nth e load 0 = expected_load (fun v => v) 1 clean noisy stddev e.
Proof.
  apply (load_expected_or_counted (layer_1_2 true) (fun v => v) (fun _ _ => 1) [[1]] true
           (1 / 100)).
  - simpl. lia.
  - apply layer_1_2_shaped.
Defined.
End RouterTheorems.

(** ** The forward pass *)

Section ForwardFacts.
Context {T : Type} `{FloatOps T}.
Import MoEKANConvBase.

Lemma expert_to_gates_some (ne : nat) (g : list (list T)) :
  Forall (fun row => length row = ne) g ->
  Forall (Forall (fun x => fnez x = fpos x)) g ->
  is_Some (SparseDispatcher.expert_to_gates (SparseDispatcher.init ne g)).
Proof.
  intros Hg Hnn. unfold SparseDispatcher.expert_to_gates.
  rewrite init_nonzero_gates, init_part_sizes by done.
  rewrite (fmap_ext_seq (fun e => (fun b => at2 g b e) <$> units_nz g e)
             (fun e => (fun b => at2 g b e) <$> units_of g e))
    by (intros; rewrite (units_nz_of ne); done || lia).
  assert ((fun e => length (units_of g e)) <$> seq 0 ne
          = length <$> ((fun e => (fun b => at2 g b e) <$> units_of g e) <$> seq 0 ne)) as ->.
  { rewrite <- list_fmap_compose. apply list_fmap_ext. intros _ e _. simpl.
    by rewrite length_fmap. }
  rewrite split_sizes_mjoin. done.
Qed.

(* every expert in the range is called once, in order, on its sub-batch *)
Lemma call_experts_some (es : list (@expert T)) (parts : list (list (@unit_t T)))
    (range : list nat) :
  Forall (fun i => i < length es /\ i < length parts) range ->
  call_experts es parts range
  = Some ((fun i => nth i es (fun _ => []) (nth i parts [])) <$> range,
          (fun i => (i, nth i parts [])) <$> range).
Proof.
  induction 1 as [|i range [Hie Hip] _ IH]; [done|].
  destruct (nth_lookup_or_length es i (fun _ => [])) as [He|]; [|lia].
  destruct (nth_lookup_or_length parts i []) as [Hp|]; [|lia].
  cbn [call_experts]. unfold expert in *. rewrite He, Hp, IH. done.
Qed.

(* experts that keep the length of the sub-batch and return rows of feat
   elements *)
Definition experts_fit (feat : nat) (es : list (@expert T)) : Prop :=
  Forall (fun e : @expert T => forall inp,
            length (e inp) = length inp /\
            Forall (fun row => length row = feat) (e inp)) es.
End ForwardFacts.

Section ForwardReal.
Local Open Scope R_scope.
Import MoEKANConvBase.

(* what forward needs of its input: a valid configuration, units with
   input_size channels, and one fitting expert per expert index *)
Definition forward_ready (self : @t R) (feat : nat) (x : list (@unit_t R)) : Prop :=
  (1 <= k self <= num_experts self)%Z /\
  well_shaped self (avgpool x) /\
  length (experts self) = Z.to_nat (num_experts self) /\
  experts_fit feat (experts self).

Lemma gates_shape_nonneg (k' ne : nat) (logits : list (list R)) :
  (k' <= ne)%nat ->
  Forall (fun row => length row = ne) logits ->
  Forall (fun row => length row = ne) (gate_row k' <$> logits) /\
  Forall (Forall (fun v => 0 <= v)) (gate_row k' <$> logits).
Proof.
  intros Hk Hrows. split; apply Forall_fmap; (eapply Forall_impl; [apply Hrows|]);
    intros row Hrow; simpl in *.
  - by rewrite gate_row_length.
  - apply gate_row_nonneg. lia.
Qed.

Lemma forward_result (self : @t R) (cdf : R -> R) (randn : nat -> nat -> R) (feat : nat)
    (x : list (@unit_t R)) (train : bool) (loss_coef : R) :
  forward_ready self feat x ->
  let ne := Z.to_nat (num_experts self) in
  exists logits load y calls,
    router_logits self randn (avgpool x) train (flit 1 100) = Some logits /\
    let gates := gate_row (Z.to_nat (k self)) <$> logits in
    noisy_top_k_gating self cdf randn (avgpool x) train (flit 1 100) = Some (gates, load) /\
    forward self cdf randn feat x train loss_coef
    = Some (y, (cv_squared (sum0 ne gates) + cv_squared load) * loss_coef, calls) /\
    length y = length x /\
    length load = ne /\
    Forall2 (fun i call =>
               fst call = i /\
               Forall2 (fun b u => x !! b = Some u) (units_of gates i) (snd call))
            (seq 0 ne) calls.
Proof.
  intros (Hk & Hshape & Hes & Hfit) ne.
  destruct (router_gates self cdf randn (avgpool x) train (flit 1 100) Hk Hshape)
    as (logits & load & Hlog & Hlen & Hrows & Hll & Hg).
  fold ne in Hrows.
  set (gates := gate_row (Z.to_nat (k self)) <$> logits) in *.
  assert (length gates = length x) as Hgl.
  { unfold gates. rewrite length_fmap, Hlen. unfold avgpool, map2d. by rewrite length_fmap. }
  destruct (gates_shape_nonneg (Z.to_nat (k self)) ne logits ltac:(unfold ne; lia) Hrows)
    as [Hgr Hgn].
  fold gates in Hgr, Hgn.
  destruct (dispatch_parts ne gates x Hgr (R_nonneg_gates _ Hgn) (eq_sym Hgl))
    as (parts & Hd & Hparts).
  destruct (expert_to_gates_some ne gates Hgr (R_nonneg_gates _ Hgn)) as [eg Heg].
  assert (length parts = ne) as Hpl.
  { apply Forall2_length in Hparts. by rewrite length_seq in Hparts. }
  set (outs := (fun i => nth i (experts self) (fun _ => []) (nth i parts [])) <$> seq 0 ne).
  set (calls := (fun i => (i, nth i parts [])) <$> seq 0 ne).
  assert (outputs_fit ne feat gates outs) as Hof.
  { assert (forall e out, outs !! e = Some out ->
              exists ex part, experts self !! e = Some ex /\ parts !! e = Some part /\
                              out = ex part /\ (e < ne)%nat) as Hout.
    { intros e out Ho. unfold outs in Ho. rewrite list_lookup_fmap in Ho.
      destruct (seq 0 ne !! e) as [e'|] eqn:Ee; [|done]. apply lookup_seq in Ee as [-> He].
      simpl in Ho. injection Ho as <-.
      destruct (nth_lookup_or_length (experts self) e (fun _ => [])) as [Hx|]; [|lia].
      destruct (nth_lookup_or_length parts e []) as [Hp|]; [|lia].
      by eexists _, _. }
    split_and!.
    - unfold outs. by rewrite length_fmap, length_seq.
    - intros e out Ho. destruct (Hout e out Ho) as (ex & part & Hex & Hp & -> & He).
      destruct (Forall_lookup_1 _ _ _ _ Hfit Hex part) as [-> _].
      destruct (Forall2_lookup_r _ _ _ _ _ Hparts Hp) as (e' & He' & Hf).
      apply lookup_seq in He' as [-> _]. by apply Forall2_length in Hf.
    - apply Forall_lookup_2. intros e out Ho.
      destruct (Hout e out Ho) as (ex & part & Hex & Hp & -> & He).
      by destruct (Forall_lookup_1 _ _ _ _ Hfit Hex part) as [_ ?]. }
  exists logits, load, (unit_output ne feat gates outs true <$> seq 0 (length gates)), calls.
  split; [done|]. split; [done|]. split_and!.
  - unfold forward. fold ne. rewrite Hg. cbn [mbind option_bind fst snd].
    fold gates. rewrite Hd. cbn [mbind option_bind]. rewrite Heg. cbn [mbind option_bind].
    rewrite call_experts_some.
    + cbn [mbind option_bind fst snd]. fold outs calls.
      rewrite (combine_units ne feat gates outs true Hgr (R_nonneg_gates _ Hgn) Hof)
        by (unfold ne; lia).
      done.
    + apply Forall_forall. intros i Hi. apply elem_of_seq in Hi. lia.
  - by rewrite length_fmap, length_seq.
  - done.
  - unfold calls. apply Forall2_fmap_r, Forall_Forall2_diag, Forall_forall.
    intros i Hi. apply elem_of_seq in Hi. simpl. split; [done|].
    destruct (nth_lookup_or_length parts i []) as [Hp|]; [|lia].
    destruct (Forall2_lookup_r _ _ _ _ _ Hparts Hp) as (e' & He' & Hf).
    apply lookup_seq in He' as [-> _]. done.
Qed.
End ForwardReal.

Section ForwardClaims.
Local Open Scope R_scope.
Import MoEKANConvBase.

(** C6 (amended): forward calls every expert exactly once, in index order,
    on its sub-batch, also when the sub-batch is empty: nothing is
    short-circuited.  With experts that return one row per unit of their
    sub-batch (also for none), empty partitions and the whole pass run
    without error. *)
Theorem forward_calls_every_expert (self : @t R) (cdf : R -> R) (randn : nat -> nat -> R)
    (feat : nat) (x : list (@unit_t R)) (train : bool) (loss_coef : R) :
  forward_ready self feat x ->
  let ne := Z.to_nat (num_experts self) in
  exists gates load y loss calls,
    noisy_top_k_gating self cdf randn (avgpool x) train (flit 1 100) = Some (gates, load) /\
    forward self cdf randn feat x train loss_coef = Some (y, loss, calls) /\
    length y = length x /\
    fst <$> calls = seq 0 ne /\
    Forall2 (fun i call =>
               fst call = i /\
               Forall2 (fun b u => x !! b = Some u) (units_of gates i) (snd call))
            (seq 0 ne) calls /\
    forall i, (i < ne)%nat -> units_of gates i = [] -> (i, []) ∈ calls.
Proof.
  intros Hready ne.
  destruct (forward_result self cdf randn feat x train loss_coef Hready)
    as (logits & load & y & calls & _ & Hg & Hf & Hy & _ & Hcalls).
  fold ne in Hf, Hcalls.
  eexists _, load, y, _, calls. split_and!; [exact Hg|exact Hf|exact Hy| |exact Hcalls|].
  - clear -Hcalls. induction Hcalls as [|i c seq' cs [Hi _] _ IH]; [done|].
    csimpl. by rewrite Hi, IH.
  - intros i Hi Hnil.
    assert (seq 0 ne !! i = Some i) as Hsi by (by apply lookup_seq).
    destruct (Forall2_lookup_l _ _ _ _ _ Hcalls Hsi) as ([i' inp] & Hc & Hci & Hinp).
    simpl in *. subst i'. rewrite Hnil in Hinp. apply Forall2_nil_inv_l in Hinp as ->.
    by apply list_elem_of_lookup_2 in Hc.
Qed.

(* one unit with one channel of one pixel *)
Definition one_unit : list (@unit_t R) := [[[1]]].

Lemma layer_1_2_ready (noisy : bool) : forward_ready (layer_1_2 noisy) 1 one_unit.
Proof.
  unfold forward_ready. split; [simpl; lia|]. split; [|split; [done|]].
  - unfold well_shaped. simpl. repeat split; repeat constructor.
  - unfold experts_fit. simpl. repeat constructor;
      (rewrite ?length_fmap; try done); apply Forall_fmap, Forall_forall; done.
Qed.

Lemma forward_calls_every_expert_witness :
  exists gates load y loss calls,
    noisy_top_k_gating (layer_1_2 false) (fun v => v) (fun _ _ => 0) (avgpool one_unit)
      true (flit 1 100) = Some (gates, load) /\
    forward (layer_1_2 false) (fun v => v) (fun _ _ => 0) 1 one_unit true 1
    = Some (y, loss, calls) /\
    length y = length one_unit /\
    fst <$> calls = seq 0 2 /\
    Forall2 (fun i call =>
               fst call = i /\
               Forall2 (fun b u => one_unit !! b = Some u) (units_of gates i) (snd call))
            (seq 0 2) calls /\
    forall i, (i < 2)%nat -> units_of gates i = [] -> (i, []) ∈ calls.
Proof.
  apply (forward_calls_every_expert (layer_1_2 false) (fun v => v) (fun _ _ => 0) 1
           one_unit true 1).
  apply layer_1_2_ready.
Defined.

(* what the specification promises: an expert with an empty partition is
   not called *)
Definition short_circuits (self : @t R) (cdf : R -> R) (randn : nat -> nat -> R)
    (feat : nat) (x : list (@unit_t R)) (train : bool) (loss_coef : R) : Prop :=
  forall gates load y loss calls,
    noisy_top_k_gating self cdf randn (avgpool x) train (flit 1 100) = Some (gates, load) ->
    forward self cdf randn feat x train loss_coef = Some (y, loss, calls) ->
    forall i, units_of gates i = [] -> i ∉ fst <$> calls.

(* on a tie topk keeps the lower index *)
Lemma selected_tie (a : R) : selected 1 [a; a] = [0%nat].
Proof.
  unfold selected, sorted_desc, tag. simpl.
  assert (desc (a, 0%nat) (a, 1%nat) = true) as -> by (apply desc_true; simpl; lra).
  done.
Qed.

(* The layer with two experts, k = 1 and zero gate weights sends the unit
   to expert 0; expert 1 has an empty partition and is called all the
   same. *)
Lemma forward_short_circuit_counterexample :
  ~ short_circuits (layer_1_2 false) (fun v => v) (fun _ _ => 0) 1 one_unit true 1.
Proof.
  intros Hclaim.
  destruct (forward_result (layer_1_2 false) (fun v => v) (fun _ _ => 0) 1 one_unit true 1
              (layer_1_2_ready false))
    as (logits & load & y & calls & Hlog & Hg & Hf & _ & _ & Hcalls).
  assert (exists a, logits = [[a; a]]) as [a ->].
  { unfold router_logits in Hlog. simpl in Hlog. injection Hlog as <-. by eexists. }
  cbv zeta in Hg, Hf, Hcalls.
  change (Z.to_nat (k (layer_1_2 false))) with 1%nat in Hg, Hf, Hcalls.
  change (Z.to_nat (num_experts (layer_1_2 false))) with 2%nat in Hf, Hcalls.
  change (gate_row 1 <$> [[a; a]]) with [gate_row 1 [a; a]] in Hg, Hf, Hcalls.
  apply (Hclaim _ _ _ _ _ Hg Hf 1%nat).
  - unfold units_of. simpl. rewrite filter_cons, filter_nil.
    rewrite decide_False; [done|]. intros Hpos. apply Rpos_true in Hpos.
    unfold at2 in Hpos. simpl nth in Hpos. replace (0 / 1) with 0 in Hpos by lra.
    rewrite (gate_row_other 1 [a; a] 1) in Hpos; [lra|].
    rewrite selected_tie. by intros ?%list_elem_of_singleton.
  - inversion Hcalls as [|i0 c0 seq0 cs0 _ Hrest]; subst.
    inversion Hrest as [|i1 c1 seq1 cs1 [Hc1 _] _]; subst.
    csimpl. rewrite Hc1. right. left.
Qed.
End ForwardClaims.

Lemma fmap_positions {A B} (g : A -> B) (d : A) (l : list A) :
  g <$> l = (fun b => g (nth b l d)) <$> seq 0 (length l).
Proof.
  apply list_eq. intros i. rewrite !list_lookup_fmap.
  destruct (nth_lookup_or_length l i d) as [Hi|Hi].
  - rewrite Hi, lookup_seq_lt by (by apply lookup_lt_Some in Hi). done.
  - rewrite (proj2 (lookup_ge_None _ _) Hi), lookup_seq_ge by done. done.
Qed.

Section LossClaims.
Local Open Scope R_scope.
Import MoEKANConvBase.

(* the squared coefficient of variation as the specification words it; the
   variance is the unbiased one *)
Definition mean_of (x : list R) : R := fsum x / INR (length x).
Definition variance_of (x : list R) : R :=
  fsum ((fun v => (v - mean_of x) * (v - mean_of x)) <$> x) / (INR (length x) - 1).
Definition cv2 (x : list R) : R :=
  if decide (length x = 1%nat) then 0
  else variance_of x / (mean_of x * mean_of x + / 10 ^ 10).

Lemma cv_eps : @flit R _ 1 (10 ^ 10) = / 10 ^ 10.
Proof.
  rewrite (pow_IZR 10 10). change (10 ^ Z.of_nat 10)%Z with (Z.pos (10 ^ 10)).
  simpl. unfold Rdiv. apply Rmult_1_l.
Qed.

Lemma cv_squared_cv2 (x : list R) : cv_squared x = cv2 x.
Proof.
  unfold cv_squared, cv2. destruct (decide (length x = 1%nat)); [apply Rf0|].
  unfold var, mean, variance_of, mean_of. rewrite cv_eps, of_nat_INR, Rf1. done.
Qed.

(** C8: the auxiliary loss that forward returns is
    loss_coef * (CV^2(importance) + CV^2(load)), where importance[e] is the
    sum over the units of gates[unit, e] and CV^2(x) is
    variance(x) / (mean(x)^2 + 1e-10), and 0 for an x of one element; with a
    single expert the loss is 0. *)
Theorem forward_loss_cv_squared (self : @t R) (cdf : R -> R) (randn : nat -> nat -> R)
    (feat : nat) (x : list (@unit_t R)) (train : bool) (loss_coef : R) :
  forward_ready self feat x ->
  let ne := Z.to_nat (num_experts self) in
  exists gates load y loss calls,
    noisy_top_k_gating self cdf randn (avgpool x) train (flit 1 100) = Some (gates, load) /\
    forward self cdf randn feat x train loss_coef = Some (y, loss, calls) /\
    let importance :=
      (fun e => fsum ((fun b => at2 gates b e) <$> seq 0 (length gates))) <$> seq 0 ne in
    loss = loss_coef * (cv2 importance + cv2 load) /\
    (forall v : R, cv2 [v] = 0) /\
    (num_experts self = 1%Z -> loss = 0).
Proof.
  intros Hready ne.
  destruct (forward_result self cdf randn feat x train loss_coef Hready)
    as (logits & load & y & calls & _ & Hg & Hf & _ & Hll & _).
  fold ne in Hf, Hll. cbv zeta in Hg, Hf.
  set (gates := gate_row (Z.to_nat (k self)) <$> logits) in *.
  eexists gates, load, y, _, calls. split; [exact Hg|]. split; [exact Hf|].
  intros importance.
  assert (sum0 ne gates = importance) as ->.
  { unfold sum0, importance. apply list_fmap_ext. intros _ e _.
    by rewrite (fmap_positions _ []). }
  rewrite !cv_squared_cv2. split_and!.
  - lra.
  - intros v. unfold cv2. by rewrite decide_True.
  - intros HE. assert (ne = 1%nat) as Hne by (unfold ne; lia).
    unfold cv2. rewrite !decide_True; [lra|lia|].
    unfold importance. by rewrite length_fmap, length_seq.
Qed.

Lemma forward_loss_cv_squared_witness :
  exists gates load y loss calls,
    noisy_top_k_gating (layer_1_2 true) (fun v => v) (fun _ _ => 1) (avgpool one_unit)
      true (flit 1 100) = Some (gates, load) /\
    forward (layer_1_2 true) (fun v => v) (fun _ _ => 1) 1 one_unit true 1
    = Some (y, loss, calls) /\
    let importance :=
      (fun e => fsum ((fun b => at2 gates b e) <$> seq 0 (length gates))) <$> seq 0 2 in
    loss = 1 * (cv2 importance + cv2 load) /\
    (forall v : R, cv2 [v] = 0) /\
    (num_experts (layer_1_2 true) = 1%Z -> loss = 0).
Proof.
  apply (forward_loss_cv_squared (layer_1_2 true) (fun v => v) (fun _ _ => 1) 1 one_unit
           true 1).
  apply layer_1_2_ready.
Defined.
End LossClaims.

(** * Further properties of the code *)

(** ** The dispatcher: gates per expert, and when dispatch raises *)






Section DispatcherGates.
Context {T : Type} `{FloatOps T}.
Import SparseDispatcher.

End DispatcherGates.


Section DispatchErrors.
Local Open Scope R_scope.
Import SparseDispatcher.



End DispatchErrors.

(** ** The combiner on convex gate rows *)


Section ConvexRows.
Local Open Scope R_scope.
Import SparseDispatcher.










End ConvexRows.

(** ** Counting the routed pairs *)




Section RoutedPairs.
Context {T : Type} `{FloatOps T}.

End RoutedPairs.

Section ForwardOutput.
Local Open Scope R_scope.
Import MoEKANConvBase.


(* the forward pass after the router: the sub-batches, the expert outputs and
   the combined result, for gates of the right shape without negative
   entries *)
Lemma forward_from_gates (self : @t R) (cdf : R -> R) (randn : nat -> nat -> R)
    (feat : nat) (x : list (@unit_t R)) (train : bool) (loss_coef : R)
    (gates : list (list R)) (load : list R) :
  noisy_top_k_gating self cdf randn (avgpool x) train (flit 1 100) = Some (gates, load) ->
  let ne := Z.to_nat (num_experts self) in
  ne <> 0%nat ->
  length gates = length x ->
  Forall (fun row => length row = ne) gates ->
  Forall (Forall (fun v => 0 <= v)) gates ->
  length (experts self) = ne ->
  experts_fit feat (experts self) ->
  exists parts,
    SparseDispatcher.dispatch (SparseDispatcher.init ne gates) x = Some parts /\
    Forall2 (fun e part => Forall2 (fun b u => x !! b = Some u) (units_of gates e) part)
            (seq 0 ne) parts /\
    let outs := (fun i => nth i (experts self) (fun _ => []) (nth i parts [])) <$> seq 0 ne in
    outputs_fit ne feat gates outs /\
    forward self cdf randn feat x train loss_coef
    = Some (unit_output ne feat gates outs true <$> seq 0 (length x),
            (cv_squared (sum0 ne gates) + cv_squared load) * loss_coef,
            (fun i => (i, nth i parts [])) <$> seq 0 ne).
Proof.
  intros Hg ne Hne Hgl Hgr Hgn Hes Hfit.
  destruct (dispatch_parts ne gates x Hgr (R_nonneg_gates _ Hgn) (eq_sym Hgl))
    as (parts & Hd & Hparts).
  destruct (expert_to_gates_some ne gates Hgr (R_nonneg_gates _ Hgn)) as [eg Heg].
  assert (length parts = ne) as Hpl.
  { apply Forall2_length in Hparts. by rewrite length_seq in Hparts. }
  exists parts. split; [done|]. split; [done|]. intros outs.
  assert (outputs_fit ne feat gates outs) as Hof.
  { assert (forall e out, outs !! e = Some out ->
              exists ex part, experts self !! e = Some ex /\ parts !! e = Some part /\
                              out = ex part /\ (e < ne)%nat) as Hout.
    { intros e out Ho. unfold outs in Ho. rewrite list_lookup_fmap in Ho.
      destruct (seq 0 ne !! e) as [e'|] eqn:Ee; [|done]. apply lookup_seq in Ee as [-> He].
      simpl in Ho. injection Ho as <-.
      destruct (nth_lookup_or_length (experts self) e (fun _ => [])) as [Hx|]; [|lia].
      destruct (nth_lookup_or_length parts e []) as [Hp|]; [|lia].
      by eexists _, _. }
    split_and!.
    - unfold outs. by rewrite length_fmap, length_seq.
    - intros e out Ho. destruct (Hout e out Ho) as (ex & part & Hex & Hp & -> & He).
      destruct (Forall_lookup_1 _ _ _ _ Hfit Hex part) as [-> _].
      destruct (Forall2_lookup_r _ _ _ _ _ Hparts Hp) as (e' & He' & Hf).
      apply lookup_seq in He' as [-> _]. by apply Forall2_length in Hf.
    - apply Forall_lookup_2. intros e out Ho.
      destruct (Hout e out Ho) as (ex & part & Hex & Hp & -> & He).
      by destruct (Forall_lookup_1 _ _ _ _ Hfit Hex part) as [_ ?]. }
  split; [done|].
  unfold forward. fold ne. rewrite Hg. cbn [mbind option_bind fst snd].
  rewrite Hd. cbn [mbind option_bind]. rewrite Heg. cbn [mbind option_bind].
  rewrite call_experts_some.
  - cbn [mbind option_bind fst snd]. fold outs.
    rewrite (combine_units ne feat gates outs true Hgr (R_nonneg_gates _ Hgn) Hof Hne).
    by rewrite Hgl.
  - apply Forall_forall. intros i Hi. apply elem_of_seq in Hi. lia.
Qed.



End ForwardOutput.

(** ** The router in evaluation mode *)

Section EvalMode.
Local Open Scope R_scope.
Import MoEKANConvBase.

(* the same layer with noisy gating switched off *)
Definition without_noise (self : @t R) : @t R :=
  {| noisy_gating := false; num_experts := num_experts self;
     output_size := output_size self; input_size := input_size self; k := k self;
     experts := experts self; w_gate := w_gate self; w_noise := w_noise self |}.

Lemma stddev_eval (raw : list (list R)) (noise_epsilon : R) (b e : nat) :
  at2 (noise_stddev_of raw false noise_epsilon) b e = 0.
Proof.
  unfold noise_stddev_of, at2, map2d. rewrite !nth_lookup, !list_lookup_fmap.
  destruct (raw !! b) as [row|]; simpl; [|apply Rf0].
  rewrite list_lookup_fmap. destruct (row !! e) as [r|]; simpl; [|apply Rf0].
  lra.
Qed.

(* with train false the noise is scaled by zero *)
Lemma noisy_logits_eval (randn : nat -> nat -> R) (clean raw : list (list R))
    (noise_epsilon : R) :
  noisy_logits_of randn clean (noise_stddev_of raw false noise_epsilon) = clean.
Proof.
  unfold noisy_logits_of.
  rewrite (imap_ext _ (fun _ row => row)); [apply list_eq; intros i; rewrite list_lookup_imap; by destruct (clean !! i)|].
  intros b row _. simpl.
  rewrite (imap_ext _ (fun _ c => c)); [apply list_eq; intros i; rewrite list_lookup_imap; by destruct (row !! i)|].
  intros e c _. simpl. rewrite stddev_eval. lra.
Qed.

(** X6: With train false the router does not use the noise: gates and load are
    those of the same layer with noisy gating off, whatever the random
    sample, the noise weights' values, noise_epsilon and the CDF are. *)
Theorem eval_gating_ignores_noise (self : @t R) (cdf cdf' : R -> R)
    (randn randn' : nat -> nat -> R) (x : list (list R)) (noise_epsilon noise_epsilon' : R) :
  well_shaped self x ->
  noisy_top_k_gating self cdf randn x false noise_epsilon
  = noisy_top_k_gating (without_noise self) cdf' randn' x false noise_epsilon'.
Proof.
  intros (Hx & Hwg & Hwgr & Hwn & Hwnr).
  unfold noisy_top_k_gating.
  cbn [without_noise noisy_gating num_experts input_size k w_gate w_noise].
  destruct (matmul _ _ x (w_gate self)) as [clean|]; [|done].
  cbn [mbind option_bind].
  destruct (noisy_gating self) eqn:Eng; [|done].
  destruct (matmul_some _ _ x (w_noise self) Hx Hwn Hwnr) as (raw & -> & _).
  cbn [mbind option_bind].
  fold (noise_stddev_of raw false noise_epsilon).
  fold (noisy_logits_of randn clean (noise_stddev_of raw false noise_epsilon)).
  rewrite noisy_logits_eval. rewrite !andb_false_r. done.
Qed.

Lemma eval_gating_ignores_noise_witness :
  noisy_top_k_gating (layer_1_2 true) (fun v => v) (fun _ _ => 1) [[1]] false (1 / 100)
  = noisy_top_k_gating (without_noise (layer_1_2 true)) (fun _ => 0) (fun _ _ => 5) [[1]]
      false 3.
Proof.
  apply (eval_gating_ignores_noise (layer_1_2 true) (fun v => v) (fun _ => 0)
           (fun _ _ => 1) (fun _ _ => 5) [[1]] (1 / 100) 3).
  apply layer_1_2_shaped.
Defined.
End EvalMode.

(** ** The squared coefficient of variation and the loss *)

Section Variation.
Local Open Scope R_scope.
Import MoEKANConvBase.

Lemma fsum_nonneg_zero (l : list R) :
  Forall (fun v => 0 <= v) l -> fsum l = 0 -> Forall (fun v => v = 0) l.
Proof.
  induction 1 as [|v l Hv Hl IH]; intros Hs; [constructor|].
  rewrite fsum_cons in Hs. pose proof (fsum_nonneg l Hl).
  constructor; [lra|]. apply IH. lra.
Qed.

Lemma squares_nonneg (m : R) (x : list R) :
  Forall (fun v => 0 <= v) ((fun v => (v - m) * (v - m)) <$> x).
Proof. apply Forall_fmap, Forall_forall. intros v _. apply (Rle_0_sqr (v - m)). Qed.

Lemma INR_length_ge_2 {A} (x : list A) : (2 <= length x)%nat -> 2 <= INR (length x).
Proof. intros Hn. apply le_INR in Hn. simpl in Hn. lra. Qed.

Lemma cv2_denominator_pos (m : R) : 0 < m * m + / 10 ^ 10.
Proof.
  pose proof (Rle_0_sqr m) as Hm. unfold Rsqr in Hm.
  apply Rplus_le_lt_0_compat; [done|]. apply Rinv_0_lt_compat, pow_lt. lra.
Qed.

Lemma cv_squared_nonneg (x : list R) : x <> [] -> 0 <= cv_squared x.
Proof.
  intros Hx. rewrite cv_squared_cv2. unfold cv2.
  destruct (decide (length x = 1%nat)) as [|Hn]; [lra|].
  assert (2 <= length x)%nat as Hn2 by (destruct x as [|? [|? ?]]; simpl in *; done || lia).
  pose proof (INR_length_ge_2 x Hn2) as Hn'.
  pose proof (fsum_nonneg _ (squares_nonneg (mean_of x) x)) as Hs.
  unfold variance_of, Rdiv.
  apply Rmult_le_pos; [apply Rmult_le_pos; [done|]|];
    apply Rlt_le, Rinv_0_lt_compat; [lra|apply cv2_denominator_pos].
Qed.

(* a sample whose elements are all equal to c *)
Lemma mean_of_uniform (x : list R) (c : R) :
  x <> [] -> Forall (fun v => v = c) x -> mean_of x = c.
Proof.
  intros Hx Hc. unfold mean_of.
  assert (x = (fun _ => c) <$> x) as ->.
  { rewrite <- (list_fmap_id x) at 1. apply list_fmap_ext. intros i v Hv.
    apply list_elem_of_lookup_2 in Hv. rewrite Forall_forall in Hc. by apply Hc. }
  rewrite fsum_const, length_fmap.
  assert (0 < INR (length x)).
  { apply lt_0_INR. destruct x; [done|simpl; lia]. }
  field. lra.
Qed.

Lemma cv_squared_zero_iff (x : list R) :
  (2 <= length x)%nat ->
  cv_squared x = 0 <-> Forall (fun v => v = mean_of x) x.
Proof.
  intros Hn2. rewrite cv_squared_cv2. unfold cv2.
  rewrite decide_False by lia.
  pose proof (INR_length_ge_2 x Hn2) as Hn'.
  pose proof (cv2_denominator_pos (mean_of x)) as Hd.
  pose proof (squares_nonneg (mean_of x) x) as Hsq.
  unfold variance_of. split.
  - intros Hz.
    assert (fsum ((fun v => (v - mean_of x) * (v - mean_of x)) <$> x) = 0) as Hs.
    { unfold Rdiv in Hz.
      apply Rmult_integral in Hz as [Hz|Hz].
      - apply Rmult_integral in Hz as [Hz|Hz]; [done|].
        assert (0 < / (INR (length x) - 1)) by (apply Rinv_0_lt_compat; lra). lra.
      - assert (0 < / (mean_of x * mean_of x + / 10 ^ 10)) by by apply Rinv_0_lt_compat.
        lra. }
    pose proof (fsum_nonneg_zero _ Hsq Hs) as Hall.
    apply Forall_fmap in Hall. eapply Forall_impl; [apply Hall|].
    simpl. intros v Hv. nra.
  - intros Hall.
    assert ((fun v => (v - mean_of x) * (v - mean_of x)) <$> x = (fun _ => 0) <$> x) as ->.
    { apply list_fmap_ext. intros i v Hv. apply list_elem_of_lookup_2 in Hv.
      rewrite Forall_forall in Hall. rewrite (Hall v Hv). lra. }
    rewrite fsum_const. unfold Rdiv. lra.
Qed.

(* a sample of equal elements has no variation *)
Lemma cv_squared_uniform (x : list R) (c : R) :
  x <> [] -> Forall (fun v => v = c) x -> cv_squared x = 0.
Proof.
  intros Hx Hc. destruct (decide (length x = 1%nat)) as [Hn|Hn].
  - unfold cv_squared. rewrite decide_True by done. apply Rf0.
  - assert (2 <= length x)%nat as Hn2
      by (destruct x as [|? [|? ?]]; simpl in *; done || lia).
    apply (cv_squared_zero_iff x Hn2). by rewrite (mean_of_uniform x c).
Qed.

(** X7: cv_squared of a non-empty sample is never negative, and it is zero
    exactly when all elements of the sample are equal: the loss term of a
    perfectly balanced importance or load vanishes, and only that one. *)
Theorem cv_squared_zero_iff_uniform (x : list R) :
  x <> [] ->
  0 <= cv_squared x /\
  (cv_squared x = 0 <-> forall v w, v ∈ x -> w ∈ x -> v = w).
Proof.
  intros Hx. split; [by apply cv_squared_nonneg|].
  destruct (decide (length x = 1%nat)) as [Hn|Hn].
  - split.
    + intros _ v w Hv Hw. destruct x as [|a [|? ?]]; try done.
      apply list_elem_of_singleton in Hv, Hw. congruence.
    + intros _. unfold cv_squared. rewrite decide_True by done. apply Rf0.
  - assert (2 <= length x)%nat as Hn2
      by (destruct x as [|? [|? ?]]; simpl in *; done || lia).
    rewrite (cv_squared_zero_iff x Hn2). split.
    + intros Hall v w Hv Hw. rewrite Forall_forall in Hall.
      by rewrite (Hall v Hv), (Hall w Hw).
    + intros Heq. destruct x as [|a x']; [done|].
      assert (Forall (fun v => v = a) (a :: x')) as Ha.
      { apply Forall_forall. intros v Hv. apply Heq; [done|left]. }
      rewrite (mean_of_uniform (a :: x') a) by done. done.
Qed.

Lemma cv_squared_zero_iff_uniform_witness :
  0 <= cv_squared [3; 3] /\
  (cv_squared [3; 3] = 0 <-> forall v w, v ∈ [3; 3] -> w ∈ [3; 3] -> v = w).
Proof. apply (cv_squared_zero_iff_uniform [3; 3]). done. Defined.

(** X8: The auxiliary loss that forward returns is never negative when
    loss_coef is not. *)
Theorem forward_loss_nonneg (self : @t R) (cdf : R -> R) (randn : nat -> nat -> R)
    (feat : nat) (x : list (@unit_t R)) (train : bool) (loss_coef : R) :
  forward_ready self feat x ->
  0 <= loss_coef ->
  exists y loss calls,
    forward self cdf randn feat x train loss_coef = Some (y, loss, calls) /\ 0 <= loss.
Proof.
  intros Hready Hcoef.
  destruct (forward_result self cdf randn feat x train loss_coef Hready)
    as (logits & load & y & calls & _ & _ & Hf & _ & Hll & _).
  destruct Hready as (Hk & _).
  eexists _, _, _. split; [exact Hf|].
  apply Rmult_le_pos; [|done].
  apply Rplus_le_le_0_compat; apply cv_squared_nonneg.
  - intros Hnil. apply (f_equal length) in Hnil. unfold sum0 in Hnil.
    rewrite length_fmap, length_seq in Hnil. simpl in Hnil. lia.
  - intros Hnil. rewrite Hnil in Hll. simpl in Hll. lia.
Qed.

Lemma forward_loss_nonneg_witness :
  exists y loss calls,
    forward (layer_1_2 true) (fun v => v) (fun _ _ => 1) 1 one_unit true 1
    = Some (y, loss, calls) /\ 0 <= loss.
Proof.
  apply (forward_loss_nonneg (layer_1_2 true) (fun v => v) (fun _ _ => 1) 1 one_unit true 1).
  - apply layer_1_2_ready.
  - lra.
Defined.
End Variation.

(** ** The noise scale and the load *)

Section NoiseAndLoad.
Local Open Scope R_scope.
Import MoEKANConvBase.




(* a layer with three experts, top-1 routing *)
Definition layer_1_3 (noisy : bool) : @t R :=
  {| noisy_gating := noisy; num_experts := 3; output_size := 1; input_size := 1;
     k := 1; experts := replicate 3 (fun inp => (fun _ => [0]) <$> inp);
     w_gate := [[0; 0; 0]]; w_noise := [[0; 0; 0]] |}.

Lemma layer_1_3_shaped (noisy : bool) : well_shaped (layer_1_3 noisy) [[1]].
Proof. unfold well_shaped. simpl. split_and!; repeat constructor. Qed.


Lemma fsum_unit_bounds (l : list R) :
  Forall (fun v => 0 <= v <= 1) l -> 0 <= fsum l <= INR (length l).
Proof.
  induction 1 as [|v l Hv _ IH].
  - rewrite fsum_nil. simpl. lra.
  - rewrite fsum_cons. change (length (v :: l)) with (S (length l)). rewrite S_INR. lra.
Qed.

Lemma count_pos_le (ne : nat) (g : list (list R)) :
  Forall (fun n => (n <= length g)%nat) (SparseDispatcher.count_pos ne g).
Proof.
  unfold SparseDispatcher.count_pos. apply Forall_fmap, Forall_forall. intros e _.
  simpl. apply length_filter.
Qed.

(** X10: Every entry of the load that the router returns lies between 0 and the
    batch size, for a CDF with values between 0 and 1: also the expected
    load is a number of units. *)
Theorem load_between_zero_and_batch (self : @t R) (cdf : R -> R)
    (randn : nat -> nat -> R) (x : list (list R)) (train : bool) (noise_epsilon : R) :
  (1 <= k self <= num_experts self)%Z ->
  well_shaped self x ->
  (forall v, 0 <= cdf v <= 1) ->
  exists gates load,
    noisy_top_k_gating self cdf randn x train noise_epsilon = Some (gates, load) /\
    length load = Z.to_nat (num_experts self) /\
    Forall (fun l => 0 <= l <= INR (length x)) load.
Proof.
  intros Hk Hshape Hcdf.
  destruct (gating_result self cdf randn x train noise_epsilon Hk Hshape)
    as (clean & raw & Hclean & Hraw & Hlen & Hrows & Hg).
  eexists _, _. split; [exact Hg|].
  destruct (noisy_gating self && (k self <? num_experts self)%Z && train) eqn:Ecase.
  - split; [unfold soft_load, sum0; by rewrite length_fmap, length_seq|].
    unfold soft_load, sum0. apply Forall_fmap, Forall_forall. intros e _. simpl.
    assert (length clean = length x) as Hcl.
    { destruct Hshape as (Hx & Hwg & Hwgr & _).
      destruct (matmul_some _ _ x (w_gate self) Hx Hwg Hwgr) as (c & Hc & Hcl & _).
      rewrite Hclean in Hc. by injection Hc as <-. }
    rewrite <- Hcl.
    match goal with |- _ <= fsum ?l <= _ =>
      replace (length clean) with (length l) by (by rewrite length_fmap, length_imap);
      apply fsum_unit_bounds
    end.
    apply Forall_fmap, Forall_forall. intros row Hrow. simpl.
    apply list_elem_of_lookup in Hrow as [b Hrow].
    apply list_lookup_imap_Some in Hrow as (crow & _ & ->).
    rewrite nth_lookup, list_lookup_imap.
    destruct (crow !! e) as [c|]; simpl; [|lra].
    unfold prob_entry. destruct (fgt _ _); apply Hcdf.
  - split; [unfold gates_to_load, SparseDispatcher.count_pos;
            by rewrite !length_fmap, length_seq|].
    unfold gates_to_load. apply Forall_fmap.
    eapply Forall_impl; [apply count_pos_le|]. intros n Hn. unfold compose.
    cbv beta in Hn. rewrite of_nat_INR. rewrite length_fmap in Hn.
    rewrite Hlen in Hn. split; [apply pos_INR|by apply le_INR].
Qed.

Lemma load_between_zero_and_batch_witness :
  exists gates load,
    noisy_top_k_gating (layer_1_3 true) (fun _ => 1 / 2) (fun _ _ => 1) [[1]] true (1 / 100)
    = Some (gates, load) /\
    length load = 3%nat /\
    Forall (fun l => 0 <= l <= INR 1) load.
Proof.
  apply (load_between_zero_and_batch (layer_1_3 true) (fun _ => 1 / 2) (fun _ _ => 1) [[1]]
           true (1 / 100)).
  - simpl. lia.
  - apply layer_1_3_shaped.
  - intros v. lra.
Defined.
End NoiseAndLoad.

(** ** Totals of the gates and the load; dense routing *)

Section Totals.
Local Open Scope R_scope.
Import MoEKANConvBase.





Lemma count_pos_units (ne : nat) (g : list (list R)) :
  SparseDispatcher.count_pos ne g = (fun e => length (units_of g e)) <$> seq 0 ne.
Proof. apply (init_part_sizes ne g). Qed.










End Totals.

(** ** Configurations that the constructor accepts and forward rejects *)

Section Degenerate.
Context {T : Type} `{FloatOps T}.
Import MoEKANConvBase.

Lemma matmul_length (nin nout : nat) (x w m : list (list T)) :
  matmul nin nout x w = Some m -> length m = length x.
Proof.
  unfold matmul. destruct (_ && _); [|done]. intros [= <-]. by rewrite length_fmap.
Qed.

Lemma mapM_head_None {A B} (f : A -> option B) (a : A) (l : list A) :
  f a = None -> mapM f (a :: l) = None.
Proof. intros Ha. simpl. by rewrite Ha. Qed.

(* for k <= 0 the threshold position of unit 0 is negative *)
Lemma prob_in_top_k_None (self : t) (cdf : T -> T)
    (clean noisy stddev top : list (list T)) :
  (k self <= 0)%Z -> clean <> [] ->
  prob_in_top_k self cdf clean noisy stddev top = None.
Proof.
  intros Hk Hc. unfold prob_in_top_k.
  set (m := Z.of_nat (length (nth 0 top []))).
  assert (mapM (gather1 (mjoin top))
            ((fun p => (p - 1)%Z)
               <$> ((fun b => (Z.of_nat b * m + k self)%Z) <$> seq 0 (length clean)))
          = None) as ->.
  { destruct clean as [|row clean]; [done|].
    change (seq 0 (length (row :: clean))) with (0 :: seq 1 (length clean)).
    rewrite !fmap_cons. apply mapM_head_None.
    unfold gather1. rewrite (proj2 (Z.ltb_lt _ _)); [done|]. lia. }
  by destruct (mapM _ _).
Qed.

Lemma gating_None (self : t) (cdf : T -> T) (randn : nat -> nat -> T)
    (x : list (list T)) (train : bool) (noise_epsilon : T) :
  (k self <= -2)%Z \/
  ((k self <= 0)%Z /\ (k self < num_experts self)%Z /\
   noisy_gating self = true /\ train = true /\ x <> []) ->
  noisy_top_k_gating self cdf randn x train noise_epsilon = None.
Proof.
  intros Hcase. unfold noisy_top_k_gating.
  destruct (matmul _ _ x (w_gate self)) as [clean|] eqn:Hclean; [|done].
  cbn [mbind option_bind].
  destruct (if noisy_gating self then _ else _) as [raw|]; [|done].
  cbn [mbind option_bind].
  destruct (_ || _) eqn:Hn; [done|].
  apply orb_false_elim in Hn as [Hn _]. apply Z.ltb_ge in Hn.
  destruct Hcase as [Hk|(Hk & HkE & -> & -> & Hx)]; [lia|].
  rewrite (proj2 (Z.ltb_lt _ _) HkE). cbn [andb].
  rewrite prob_in_top_k_None; [done|done|].
  intros ->. apply matmul_length in Hclean. destruct x; [done|]. done.
Qed.

(** X13: The constructor's only check is k <= num_experts, so it accepts
    num_experts = 0 and any k <= 0; forward then raises: always for
    num_experts = 0 and for k <= -2, and for k <= 0 whenever the expected
    load is computed (noisy gating, training, k < num_experts, a non-empty
    batch). *)
Theorem forward_raises_on_degenerate_layer (self : t) (cdf : T -> T)
    (randn : nat -> nat -> T) (feat : nat) (x : list unit_t) (train : bool)
    (loss_coef : T) :
  num_experts self = 0%Z \/
  (k self <= -2)%Z \/
  ((k self <= 0)%Z /\ (k self < num_experts self)%Z /\
   noisy_gating self = true /\ train = true /\ x <> []) ->
  forward self cdf randn feat x train loss_coef = None.
Proof.
  intros [HE|Hcase]; unfold forward.
  - destruct (noisy_top_k_gating _ _ _ _ _ _) as [gl|]; [|done].
    cbn [mbind option_bind]. rewrite HE.
    destruct (SparseDispatcher.dispatch _ _) as [parts|]; [|done].
    cbn [mbind option_bind].
    destruct (SparseDispatcher.expert_to_gates _) as [eg|]; [|done].
    cbn [mbind option_bind]. reflexivity.
  - rewrite gating_None; [done|].
    destruct Hcase as [Hk|(Hk & HkE & Hng & Htr & Hx)]; [by left|right].
    split_and!; try done. unfold avgpool, map2d. by destruct x.
Qed.
End Degenerate.

Lemma forward_raises_on_degenerate_layer_witness :
  MoEKANConvBase.forward
    {| MoEKANConvBase.noisy_gating := true; MoEKANConvBase.num_experts := 2;
       MoEKANConvBase.output_size := 1; MoEKANConvBase.input_size := 1;
       MoEKANConvBase.k := 0;
       MoEKANConvBase.experts := replicate 2 (fun inp => (fun _ => [0%R]) <$> inp);
       MoEKANConvBase.w_gate := [[0%R; 0%R]]; MoEKANConvBase.w_noise := [[0%R; 0%R]] |}
    (fun v => v) (fun _ _ => 1%R) 1 one_unit true 1%R = None.
Proof.
  apply forward_raises_on_degenerate_layer.
  right. right. simpl. split_and!; done || lia.
Defined.

(** ** Layers that route every unit alike: k = 0, and a fresh layer *)

Section UniformRouting.
Local Open Scope R_scope.
Import MoEKANConvBase.

Lemma nth_replicate_0 (n e : nat) : nth e (replicate n 0) 0 = 0.
Proof.
  rewrite nth_lookup. destruct (replicate n 0 !! e) as [v|] eqn:E; [|done].
  by apply lookup_replicate in E as [-> _].
Qed.


Lemma fsum_replicate_0 (n : nat) : fsum (replicate n 0) = 0.
Proof.
  induction n as [|n IH]; [apply fsum_nil|]. simpl replicate. rewrite fsum_cons, IH. lra.
Qed.




(** *** k = 0 *)

Lemma gate_row_0 (row : list R) : gate_row 0 row = (fun _ => 0) <$> row.
Proof.
  unfold gate_row. rewrite take_0. unfold scatter_row. simpl.
  apply list_fmap_ext. intros _ v _. apply Rf0.
Qed.

Lemma zeros_of_shape (ne : nat) (m : list (list R)) :
  Forall (fun row => length row = ne) m ->
  (fun row : list R => (fun _ => 0) <$> row) <$> m = replicate (length m) (replicate ne 0).
Proof.
  intros Hm. apply const_fmap. intros i row Hrow.
  pose proof (Forall_lookup_1 _ _ _ _ Hm Hrow) as Hl. simpl in Hl.
  rewrite <- Hl. by apply const_fmap.
Qed.

Lemma at2_zeros (n ne b e : nat) : at2 (replicate n (replicate ne 0)) b e = 0.
Proof.
  unfold at2. rewrite Rf0.
  destruct (nth_lookup_or_length (replicate n (replicate ne 0)) b []) as [Hrow|Hrow].
  - apply lookup_replicate in Hrow as [-> _]. apply nth_replicate_0.
  - rewrite (nth_overflow (replicate n (replicate ne 0))) by lia. by destruct e.
Qed.

Lemma units_of_zeros (n ne e : nat) : units_of (replicate n (replicate ne 0)) e = [].
Proof.
  unfold units_of. induction (seq 0 _) as [|b l IH]; [done|].
  rewrite filter_cons, decide_False; [done|].
  rewrite at2_zeros. intros Hp. apply Rpos_true in Hp. lra.
Qed.

Lemma experts_of_zeros (n ne b : nat) : experts_of ne (replicate n (replicate ne 0)) b = [].
Proof.
  unfold experts_of. induction (seq 0 _) as [|e l IH]; [done|].
  rewrite filter_cons, decide_False; [done|].
  rewrite at2_zeros. intros Hp. apply Rpos_true in Hp. lra.
Qed.

(* with k = 0 nothing is selected: all gates are zero *)
Lemma gating_k_zero (self : @t R) (cdf : R -> R) (randn : nat -> nat -> R)
    (x : list (list R)) (train : bool) (noise_epsilon : R) :
  k self = 0%Z -> (1 <= num_experts self)%Z ->
  well_shaped self x ->
  noisy_gating self = false \/ train = false ->
  let ne := Z.to_nat (num_experts self) in
  noisy_top_k_gating self cdf randn x train noise_epsilon
  = Some (replicate (length x) (replicate ne 0), replicate ne 0).
Proof.
  intros Hk0 HE (Hx & Hwg & Hwgr & Hwn & Hwnr) Hmode ne.
  set (nin := Z.to_nat (input_size self)).
  destruct (matmul_some nin ne x (w_gate self) Hx Hwg Hwgr) as (clean & Hclean & Hcl & Hcr).
  assert (exists raw, (if noisy_gating self then matmul nin ne x (w_noise self) else Some [])
                      = Some raw) as [raw Hraw].
  { destruct (noisy_gating self); [|by eexists].
    destruct (matmul_some nin ne x (w_noise self) Hx Hwn Hwnr) as (raw & Hraw & _).
    by exists raw. }
  unfold noisy_top_k_gating. fold nin ne. rewrite Hclean, Hraw. cbn [mbind option_bind].
  fold (noise_stddev_of raw train noise_epsilon).
  set (stddev := noise_stddev_of raw train noise_epsilon).
  fold (noisy_logits_of randn clean stddev).
  set (logits := if noisy_gating self then noisy_logits_of randn clean stddev else clean).
  destruct (noisy_logits_shape randn ne clean stddev Hcr) as [Hnl Hnr].
  assert (length logits = length x /\ Forall (fun row => length row = ne) logits)
    as [Hll Hlr].
  { unfold logits. destruct (noisy_gating self); [|done]. split; [congruence|done]. }
  rewrite Hk0.
  assert ((Z.min (0 + 1) (num_experts self) <? 0)%Z
          || (Z.of_nat ne <? Z.min (0 + 1) (num_experts self))%Z = false) as ->.
  { apply orb_false_intro; apply Z.ltb_ge; unfold ne; lia. }
  rewrite (gates_of_logits 0 (num_experts self) logits) by lia.
  change (Z.to_nat 0) with 0%nat.
  assert (gate_row 0 <$> logits = replicate (length x) (replicate ne 0)) as ->.
  { rewrite <- Hll, <- (zeros_of_shape ne logits Hlr).
    apply list_fmap_ext. intros _ row _. apply gate_row_0. }
  assert (noisy_gating self && (0 <? num_experts self)%Z && train = false) as ->.
  { destruct Hmode as [-> | ->]; [done|]. by rewrite andb_false_r. }
  cbn [mbind option_bind]. do 2 f_equal.
  unfold gates_to_load. rewrite count_pos_units, <- list_fmap_compose.
  etrans; [apply (const_fmap _ _ 0)|by rewrite length_seq].
  intros _ e _. unfold compose. by rewrite units_of_zeros, of_nat_INR.
Qed.

(** X14: With k = 0, which the constructor accepts, and the counted load (noisy
    gating off, or train false) forward selects no expert: it calls every
    expert on an empty batch, fills every output with log(eps) and returns
    the loss 0. *)
Theorem forward_with_k_zero (self : @t R) (cdf : R -> R) (randn : nat -> nat -> R)
    (feat : nat) (x : list (@unit_t R)) (train : bool) (loss_coef : R) :
  k self = 0%Z -> (1 <= num_experts self)%Z ->
  noisy_gating self = false \/ train = false ->
  well_shaped self (avgpool x) ->
  length (experts self) = Z.to_nat (num_experts self) ->
  experts_fit feat (experts self) ->
  forward self cdf randn feat x train loss_coef
  = Some (replicate (length x) (replicate feat (ln SparseDispatcher.eps)), 0,
          (fun i => (i, [])) <$> seq 0 (Z.to_nat (num_experts self))).
Proof.
  intros Hk0 HE Hmode Hshape Hes Hfit.
  set (ne := Z.to_nat (num_experts self)) in *.
  pose proof (gating_k_zero self cdf randn (avgpool x) train (flit 1 100) Hk0 HE Hshape Hmode)
    as Hg.
  fold ne in Hg.
  assert (length (avgpool x) = length x) as Hax
    by (unfold avgpool, map2d; by rewrite length_fmap).
  rewrite Hax in Hg.
  set (zeros := replicate (length x) (replicate ne 0)) in *.
  destruct (forward_from_gates self cdf randn feat x train loss_coef zeros
              (replicate ne 0) Hg) as (parts & _ & Hparts & _ & Hf).
  { unfold ne. lia. }
  { unfold zeros. by rewrite length_replicate. }
  { unfold zeros. apply Forall_replicate, length_replicate. }
  { unfold zeros. apply Forall_replicate, Forall_replicate. lra. }
  { done. }
  { done. }
  fold ne in Hparts, Hf. cbv zeta in Hf. rewrite Hf. f_equal.
  assert (forall i, nth i parts [] = []) as Hempty.
  { intros i. destruct (nth_lookup_or_length parts i []) as [Hp|Hp].
    - destruct (Forall2_lookup_r _ _ _ _ _ Hparts Hp) as (e & _ & Hu).
      unfold zeros in Hu. rewrite units_of_zeros in Hu.
      by apply Forall2_nil_inv_l in Hu.
    - by rewrite nth_overflow by lia. }
  f_equal; [f_equal|].
  - etrans; [apply (const_fmap _ _ (replicate feat (ln SparseDispatcher.eps)))
            |by rewrite length_seq].
    intros _ b _. unfold unit_output.
    etrans; [apply (const_fmap _ _ (ln SparseDispatcher.eps))|by rewrite length_seq].
    intros _ j _. f_equal. apply accumulated_unrouted. apply experts_of_zeros.
  - assert (cv_squared (sum0 ne zeros) = 0) as ->.
    { apply (cv_squared_uniform _ 0).
      - intros Hnil. apply (f_equal length) in Hnil. unfold sum0 in Hnil.
        rewrite length_fmap, length_seq in Hnil. simpl in Hnil. lia.
      - unfold sum0. apply Forall_fmap, Forall_forall. intros e _. unfold compose.
        unfold zeros. rewrite fmap_replicate, Rf0, nth_replicate_0.
        apply fsum_replicate_0. }
    assert (cv_squared (replicate ne 0) = 0) as ->.
    { apply (cv_squared_uniform _ 0); [|by apply Forall_replicate].
      intros Hnil. apply (f_equal length) in Hnil. rewrite length_replicate in Hnil.
      simpl in Hnil. lia. }
    lra.
  - apply list_fmap_ext. intros _ i _. by rewrite Hempty.
Qed.

(* two experts, none selected *)
Definition layer_k0 : @t R :=
  {| noisy_gating := false; num_experts := 2; output_size := 1; input_size := 1;
     k := 0; experts := replicate 2 (fun inp => (fun _ => [0]) <$> inp);
     w_gate := [[0; 0]]; w_noise := [[0; 0]] |}.

Lemma forward_with_k_zero_witness :
  forward layer_k0 (fun v => v) (fun _ _ => 1) 1 one_unit true 1
  = Some (replicate (length one_unit) (replicate 1 (ln SparseDispatcher.eps)), 0,
          (fun i => (i, [])) <$> seq 0 (Z.to_nat (num_experts layer_k0))).
Proof.
  apply (forward_with_k_zero layer_k0 (fun v => v) (fun _ _ => 1) 1 one_unit true 1).
  - reflexivity.
  - simpl. lia.
  - by left.
  - unfold well_shaped. simpl. repeat split; repeat constructor.
  - reflexivity.
  - unfold experts_fit. simpl. repeat constructor;
      (rewrite ?length_fmap; try done); apply Forall_fmap, Forall_forall; done.
Defined.
End UniformRouting.

(** ** A layer as the constructor leaves it *)

Section FreshLayer.
Local Open Scope R_scope.
Import MoEKANConvBase.



End FreshLayer.

(** ** The values of the gates and of the output *)

Section GateValues.
Local Open Scope R_scope.
Import MoEKANConvBase.

(* the k largest values of a row are the values at the selected positions *)
Lemma top_values_selected (k : nat) (row : list R) :
  fst <$> take k (sorted_desc row) = (fun e => nth e row 0) <$> selected k row.
Proof.
  unfold selected. rewrite <- list_fmap_compose.
  apply list_fmap_ext. intros i q Hq. simpl.
  apply lookup_take_Some in Hq as [Hq _]. apply list_elem_of_lookup_2 in Hq.
  apply sorted_desc_entry in Hq. symmetry. by apply nth_lookup_Some.
Qed.

Lemma gate_row_value (k : nat) (row : list R) (e : nat) :
  e ∈ selected k row ->
  nth e (gate_row k row) 0
  = exp (nth e row 0) / fsum ((fun e' => exp (nth e' row 0)) <$> selected k row).
Proof.
  intros He. pose proof (selected_lt k row e He) as Hlt.
  apply list_elem_of_lookup in He as [p Hp].
  assert (softmax (fst <$> take k (sorted_desc row)) !! p
          = Some (exp (nth e row 0)
                  / fsum ((fun e' => exp (nth e' row 0)) <$> selected k row))) as Hv.
  { rewrite top_values_selected. unfold softmax.
    rewrite <- (list_fmap_compose (fun e' => nth e' row 0) exp).
    rewrite list_lookup_fmap, list_lookup_fmap, Hp. done. }
  pose proof (scatter_row_in ((fun _ => f0) <$> row) _ _ p e _
                (selected_NoDup k row) Hp Hv) as Hs.
  rewrite length_fmap in Hs. specialize (Hs Hlt).
  unfold gate_row. fold (selected k row). by apply nth_lookup_Some.
Qed.

(** X16: The gate of a selected expert is the softmax over the selected logits of
    the unit: exp(logit) divided by the sum of exp(logit) over the k
    selected experts. *)
Theorem gates_are_softmax_of_selected (self : @t R) (cdf : R -> R)
    (randn : nat -> nat -> R) (x : list (list R)) (train : bool) (noise_epsilon : R) :
  (1 <= k self <= num_experts self)%Z ->
  well_shaped self x ->
  exists logits gates load,
    router_logits self randn x train noise_epsilon = Some logits /\
    noisy_top_k_gating self cdf randn x train noise_epsilon = Some (gates, load) /\
    forall b e, (b < length x)%nat ->
      e ∈ selected (Z.to_nat (k self)) (nth b logits []) ->
      at2 gates b e
      = exp (at2 logits b e)
        / fsum ((fun e' => exp (at2 logits b e'))
                  <$> selected (Z.to_nat (k self)) (nth b logits [])).
Proof.
  intros Hk Hshape.
  destruct (router_gates self cdf randn x train noise_epsilon Hk Hshape)
    as (logits & load & Hlog & Hlen & Hrows & Hll & Hg).
  exists logits, (gate_row (Z.to_nat (k self)) <$> logits), load.
  split; [done|]. split; [done|]. intros b e Hb He.
  destruct (nth_lookup_or_length logits b []) as [Hrow|]; [|lia].
  assert ((gate_row (Z.to_nat (k self)) <$> logits) !! b
          = Some (gate_row (Z.to_nat (k self)) (nth b logits []))) as Hgrow
    by (by rewrite list_lookup_fmap, Hrow).
  unfold at2. rewrite (nth_lookup_Some _ _ _ _ Hgrow), Rf0.
  by apply gate_row_value.
Qed.

Lemma gates_are_softmax_of_selected_witness :
  exists logits gates load,
    router_logits (layer_1_3 true) (fun _ _ => 1) [[1]] true (1 / 100) = Some logits /\
    noisy_top_k_gating (layer_1_3 true) (fun v => v) (fun _ _ => 1) [[1]] true (1 / 100)
    = Some (gates, load) /\
    forall b e, (b < 1)%nat ->
      e ∈ selected 1 (nth b logits []) ->
      at2 gates b e
      = exp (at2 logits b e)
        / fsum ((fun e' => exp (at2 logits b e')) <$> selected 1 (nth b logits [])).
Proof.
  apply (gates_are_softmax_of_selected (layer_1_3 true) (fun v => v) (fun _ _ => 1) [[1]]
           true (1 / 100)).
  - simpl. lia.
  - apply layer_1_3_shaped.
Defined.


End GateValues.

(** ** The device that chose_cuda picks *)

Section MaxByKey.
Context (key : nat -> Z).

Local Abbreviation step := (fun best i : nat => if (key best <? key i)%Z then i else best).

(* the running maximum: either the start value survives, or the result is
   an element of the list that beats everything before it *)
Lemma fold_max_inv (l : list nat) (b : nat) :
  let r := fold_left step l b in
  (r = b /\ Forall (fun j => (key j <= key b)%Z) l) \/
  (exists l1 l2, l = l1 ++ r :: l2 /\ (key b < key r)%Z /\
                 Forall (fun j => (key j < key r)%Z) l1 /\
                 Forall (fun j => (key j <= key r)%Z) l2).
Proof.
  revert b. induction l as [|i l IH]; intros b; cbn [fold_left].
  { left. split; [done|constructor]. }
  destruct (key b <? key i)%Z eqn:E.
  - apply Z.ltb_lt in E. destruct (IH i) as [[Hr Hall]|(l1 & l2 & Hl & Hlt & H1 & H2)].
    + right. exists [], l. rewrite Hr. split_and!; [done|done|constructor|done].
    + right. exists (i :: l1), l2. split_and!; [by rewrite Hl at 1|lia| |done].
      constructor; [lia|done].
  - apply Z.ltb_ge in E. destruct (IH b) as [[Hr Hall]|(l1 & l2 & Hl & Hlt & H1 & H2)].
    + left. split; [done|]. constructor; [lia|done].
    + right. exists (i :: l1), l2. split_and!; [by rewrite Hl at 1|lia| |done].
      constructor; [lia|done].
Qed.

Lemma seq_split_lt (a n : nat) (l1 l2 : list nat) (r j : nat) :
  seq a n = l1 ++ r :: l2 -> j ∈ seq a n -> j < r -> j ∈ l1.
Proof.
  intros Hs Hj Hlt.
  assert (StronglySorted lt (l1 ++ r :: l2)) as Hsorted.
  { rewrite <- Hs. clear. revert a. induction n as [|n IH]; intros a; [constructor|].
    simpl. constructor; [apply IH|]. apply Forall_forall. intros x Hx.
    apply elem_of_seq in Hx. lia. }
  rewrite Hs in Hj. apply elem_of_app in Hj as [Hj|Hj]; [done|].
  apply StronglySorted_app_1_r in Hsorted.
  apply StronglySorted_inv in Hsorted as [_ Hall].
  apply elem_of_cons in Hj as [->|Hj]; [lia|].
  rewrite Forall_forall in Hall. specialize (Hall j Hj). lia.
Qed.

(* max over range(n): the lowest index among those with the largest key *)
Lemma max_by_key_range (n : nat) :
  n <> 0 ->
  exists i, max_by_key key (seq 0 n) = Some i /\ i < n /\
            (forall j, j < n -> (key j <= key i)%Z) /\
            (forall j, j < i -> (key j < key i)%Z).
Proof.
  intros Hn. destruct n as [|n]; [done|]. change (seq 0 (S n)) with (0 :: seq 1 n).
  cbn [max_by_key]. eexists. split; [done|].
  destruct (fold_max_inv (seq 1 n) 0) as [[Hr Hall]|(l1 & l2 & Hl & Hlt & H1 & H2)].
  - cbv zeta in Hr. rewrite Hr. split_and!; [lia| |lia].
    intros j Hj. destruct j as [|j]; [lia|].
    rewrite Forall_forall in Hall. apply Hall, elem_of_seq. lia.
  - cbv zeta in Hl, Hlt, H1, H2.
    set (r := fold_left step (seq 1 n) 0) in *.
    assert (r ∈ seq 1 n) as Hin.
    { rewrite Hl. apply elem_of_app. right. left. }
    apply elem_of_seq in Hin. split_and!; [lia| |].
    + intros j Hj. destruct j as [|j]; [lia|].
      assert (S j ∈ l1 ++ r :: l2) as Hjin by (rewrite <- Hl; apply elem_of_seq; lia).
      rewrite Forall_forall in H1, H2.
      apply elem_of_app in Hjin as [Hj1|Hj2]; [specialize (H1 _ Hj1); lia|].
      apply elem_of_cons in Hj2 as [->|Hj2]; [lia|by apply H2].
    + intros j Hj. destruct j as [|j]; [lia|].
      rewrite Forall_forall in H1. apply H1.
      apply (seq_split_lt 1 n l1 l2 r); [done|apply elem_of_seq; lia|done].
Qed.

Lemma max_by_key_None (range : list nat) : max_by_key key range = None <-> range = [].
Proof. destruct range; simpl; split; done. Qed.
End MaxByKey.

Section ChoseCuda.
Context (int : string -> option Z).

(** X18: For the device 'cuda' on a machine with more than one CUDA device, when
    every non-empty line after the first of the command's output converts to
    an integer and there is at least one, chose_cuda returns 'cuda:i' for
    the index i of the largest of these integers, the lowest such index when
    several are largest. *)
Theorem chose_cuda_picks_first_maximum (device_count : nat) (stdout : string)
    (cuda_ram : list Z) :
  1 < device_count ->
  mapM int (memory_lines stdout) = Some cuda_ram ->
  cuda_ram <> [] ->
  exists i,
    chose_cuda int "cuda" device_count stdout = Some ("cuda:" +:+ pretty i) /\
    i < length cuda_ram /\
    (forall j, j < length cuda_ram -> (nth j cuda_ram 0 <= nth i cuda_ram 0)%Z) /\
    (forall j, j < i -> (nth j cuda_ram 0 < nth i cuda_ram 0)%Z).
Proof.
  intros Hcount Hram Hne.
  destruct (max_by_key_range (fun i => nth i cuda_ram 0%Z) (length cuda_ram))
    as (i & Hmax & Hi & Hle & Hfirst).
  { by destruct cuda_ram. }
  exists i. split_and!; [|done|done|done].
  unfold chose_cuda. rewrite bool_decide_eq_true_2 by done.
  rewrite (proj2 (Nat.ltb_lt _ _) Hcount). cbn [andb].
  rewrite Hram. cbn [mbind option_bind]. rewrite Hmax. done.
Qed.

(** X19: chose_cuda raises only in its first branch (device 'cuda', more than one
    CUDA device), and there exactly when a non-empty line after the first
    does not convert to an integer or when there is no such line; every
    other device name is returned as it is. *)
Theorem chose_cuda_raises_iff (device : string) (device_count : nat) (stdout : string) :
  (chose_cuda int device device_count stdout = None <->
   device = "cuda" /\ 1 < device_count /\
   (Exists (fun line => int line = None) (memory_lines stdout) \/
    memory_lines stdout = [])) /\
  (device <> "cuda" \/ device_count <= 1 ->
   chose_cuda int device device_count stdout = Some device).
Proof.
  unfold chose_cuda. destruct (bool_decide (device = "cuda")) eqn:Ed.
  2:{ apply bool_decide_eq_false in Ed. cbn [andb]. split; [|done].
      split; [done|]. by intros [? _]. }
  apply bool_decide_eq_true in Ed. cbn [andb].
  destruct (1 <? device_count) eqn:Ec.
  2:{ apply Nat.ltb_ge in Ec. split; [|done]. split; [done|]. intros (_ & ? & _). lia. }
  apply Nat.ltb_lt in Ec. split; [|intros [?|?]; [done|lia]].
  destruct (mapM int (memory_lines stdout)) as [cuda_ram|] eqn:Em; cbn [mbind option_bind].
  - pose proof (length_mapM _ _ _ Em) as Hlen.
    destruct (max_by_key _ _) as [i|] eqn:Emax; cbn [mbind option_bind].
    + split; [done|]. intros (_ & _ & [Hex|Hnil]).
      * apply mapM_None in Hex. congruence.
      * rewrite Hnil in Hlen. destruct cuda_ram; [|done]. done.
    + split; [|done]. intros _. split_and!; [done|done|]. right.
      apply max_by_key_None in Emax. destruct cuda_ram; [|done].
      by destruct (memory_lines stdout).
  - split; [|done]. intros _. split_and!; [done|done|]. left. by apply mapM_None.
Qed.
End ChoseCuda.

(* the output of a memory query for three devices *)
Definition smi_output : string :=
  "memory.used [MiB]" +:+ String "010"%char ("300 MiB" +:+ String "010"%char ("1200 MiB"
     +:+ String "010"%char ("1200 MiB" +:+ String "010"%char ""))).

Lemma chose_cuda_picks_first_maximum_witness :
  exists i,
    chose_cuda int_decimal "cuda" 3 smi_output = Some ("cuda:" +:+ pretty i) /\
    i < length [300; 1200; 1200]%Z /\
    (forall j, j < length [300; 1200; 1200]%Z ->
               (nth j [300; 1200; 1200] 0 <= nth i [300; 1200; 1200] 0)%Z) /\
    (forall j, j < i -> (nth j [300; 1200; 1200] 0 < nth i [300; 1200; 1200] 0)%Z).
Proof.
  apply (chose_cuda_picks_first_maximum int_decimal 3 smi_output [300; 1200; 1200]%Z).
  - lia.
  - vm_compute. reflexivity.
  - done.
Defined.

(** ** Running the index bookkeeping and chose_cuda

    The dispatcher and the selection of the top k only compare scalars.  On
    integers, with their order, they run; exp and log are no integer
    functions and are left as the identity, and nothing else is run or proved
    with this instance.  The scores are those of four units and three
    experts with k = 2: [[5,1,3],[2,6,4],[0,0,9],[7,7,1]].  chose_cuda runs
    with [int_decimal] on the output of a memory query. *)

Module Scenario.
#[local] Instance Z_tests : FloatOps Z := {|
  flit := fun n _ => n;
  fadd := Z.add;
  fsub := Z.sub;
  fmul := Z.mul;
  fdiv := Z.div;
  fexp := fun x => x;
  flog := fun x => x;
  fnez := fun x => negb (x =? 0)%Z;
  fgt := fun x y => (y <? x)%Z
|}.

Definition scores : list (list Z) := [[5; 1; 3]; [2; 6; 4]; [0; 0; 9]; [7; 7; 1]]%Z.

(* the experts chosen per unit; ties go to the lower index *)
Example scenario_selected :
  selected 2 <$> scores = [[0; 2]; [1; 2]; [2; 0]; [0; 1]].
Proof. reflexivity. Qed.

(* gates with that sparsity pattern, in percent *)
Definition pattern : list (list Z) := [[88; 0; 12]; [0; 88; 12]; [1; 0; 99]; [50; 50; 0]]%Z.

Example scenario_batch_index :
  SparseDispatcher.batch_index (SparseDispatcher.init 3 pattern) = [0; 2; 3; 1; 3; 0; 1; 2].
Proof. reflexivity. Qed.

Example scenario_part_sizes :
  SparseDispatcher.part_sizes (SparseDispatcher.init 3 pattern) = [3; 2; 3].
Proof. reflexivity. Qed.

Example scenario_nonzero_gates :
  SparseDispatcher.nonzero_gates (SparseDispatcher.init 3 pattern)
  = [88; 1; 50; 88; 50; 12; 12; 99]%Z.
Proof. reflexivity. Qed.

Example scenario_dispatch :
  SparseDispatcher.dispatch (SparseDispatcher.init 3 pattern) [10; 11; 12; 13]
  = Some [[10; 12; 13]; [11; 13]; [10; 11; 12]].
Proof. reflexivity. Qed.

(* a negative gate is counted by nonzero and not by (gates > 0): split raises *)
Example negative_gate_dispatch :
  SparseDispatcher.dispatch (SparseDispatcher.init 2 [[1; -1]]%Z) [10] = None.
Proof. reflexivity. Qed.

(* chose_cuda on the output of a memory query: the second device and the
   third report the most; the lower index wins *)
Example chose_cuda_busiest : chose_cuda int_decimal "cuda" 3 smi_output = Some "cuda:1".
Proof. reflexivity. Qed.

Example chose_cuda_other_device : chose_cuda int_decimal "cuda:0" 3 smi_output = Some "cuda:0".
Proof. reflexivity. Qed.

Example chose_cuda_single_device : chose_cuda int_decimal "cuda" 1 smi_output = Some "cuda".
Proof. reflexivity. Qed.

Example chose_cuda_header_only : chose_cuda int_decimal "cuda" 2 "memory.used [MiB]" = None.
Proof. reflexivity. Qed.
End Scenario.
